(** * The SARdine GeoTIFF export path, embedded in Rocq

    The repository's scripts carry a tiled, DEFLATE-compressed Float32 GeoTIFF
    writer ([write_float32_geotiff_js_style], three near-identical copies), a
    stripped RGBA writer ([write_minimal_geotiff]), the pixel-centre to
    pixel-edge bounds correction and two box-filter multilook readers.  This
    file embeds them shallowly and checks the properties the specification
    gives for them.

    Conventions.
    - Python [int] is [Z]; [//] is [Z.div] (both round towards minus infinity)
      behind an explicit [ZeroDivisionError] test.
    - A Python exception is a value of [exn]; fallible code lives in [res].
    - The arithmetic of the bounds correction and of the box filter is taken
      over exact rationals ([Q]); the writer, whose output is bytes, keeps
      doubles as binary64 values (primitive floats) and Float32 samples as
      their 32-bit patterns.
    - [zlib.compress] is an opaque function, a [Variable] of the writer's
      section. *)

From Stdlib Require Import ZArith QArith Qabs Floats Lia List.
From Stdlib Require Import Strings.Byte.
From stdpp Require Import base list gmap strings.

#[local] Open Scope Z_scope.

(** ** Python exceptions and the error monad *)

Inductive exn : Set :=
| ZeroDivisionError
| KeyError
| IndexError
| ValueError
| OverflowError
| StructError.

Inductive res (A : Type) : Type :=
| Ok (a : A)
| Raise (e : exn).
Arguments Ok {A} a.
Arguments Raise {A} e.

#[global] Instance res_ret : MRet res := λ A a, Ok a.
#[global] Instance res_bind : MBind res := λ A B f r,
  match r with
  | Ok a => f a
  | Raise e => Raise e
  end.

(** [for x in xs: s = body(s, x)], stopping at the first exception. *)
Fixpoint foldM {S X : Type} (body : S → X → res S) (s : S) (xs : list X) : res S :=
  match xs with
  | [] => Ok s
  | x :: xs' =>
      match body s x with
      | Ok s' => foldM body s' xs'
      | Raise e => Raise e
      end
  end.

(** [range(n)]: empty when [n <= 0]. *)
Definition range (n : Z) : list Z := seqZ 0 n.


(** Sequence indexing: a negative index counts from the end, anything outside
    the sequence raises [IndexError]. *)
Definition norm_index (len i : Z) : res nat :=
  let j := if i <? 0 then i + len else i in
  if (j <? 0) || (len <=? j) then Raise IndexError else Ok (Z.to_nat j).

Definition getitem {A : Type} (l : list A) (i : Z) : res A :=
  j ← norm_index (Z.of_nat (length l)) i;
  match l !! j with
  | Some x => Ok x
  | None => Raise IndexError
  end.

Definition setitem {A : Type} (l : list A) (i : Z) (x : A) : res (list A) :=
  j ← norm_index (Z.of_nat (length l)) i;
  Ok (<[j := x]> l).

(** [l[a:b]]: both ends are clamped to the sequence, negative ends count from
    the end. *)
Definition norm_bound (len i : Z) : Z :=
  if i <? 0 then Z.max 0 (i + len) else Z.min i len.



(** What a loop of array stores leaves behind: for the keys [ks] in order,
    the value [f k], when there is one, is stored at index [idx k]. *)
Definition scatter {K A : Type} (idx : K → nat) (f : K → option A)
    (out : list A) (ks : list K) : list A :=
  foldl (λ out k, match f k with Some v => <[idx k := v]> out | None => out end) out ks.

(** [np.zeros(n)]: a negative size is refused. *)
Definition np_zeros {A : Type} (zero : A) (n : Z) : res (list A) :=
  if n <? 0 then Raise ValueError else Ok (replicate (Z.to_nat n) zero).

(** ** CoordinateCorrector: pixel-centre bounds to pixel-edge bounds *)

Module Coord.



End Coord.

(** ** Decimator: box-filter multilook *)

Module Decimate.

(** A sample counts when it is strictly positive ([block > 0]). *)
Definition valid (x : Q) : Prop := (0 < x)%Q.

#[global] Instance valid_dec (x : Q) : Decision (valid x).
Proof.
  unfold valid. destruct (Qlt_le_dec 0 x) as [H|H]; [left; exact H | right].
  intros H'. exact (Qlt_not_le _ _ H' H).
Defined.
















(** The cells of an output grid of [ew] columns, in row-major order. *)
Definition cells (rows ew : Z) : list (Z * Z) :=
  oy ← range rows; pair oy <$> range ew.



End Decimate.

(** ** Bytes, [struct.pack_into] and the number conversions of the writers *)

Module Bytes.

Definition byte_of_Z (z : Z) : byte :=
  default x00 (Byte.of_N (Z.to_N (z mod 256))).

Definition Z_of_byte (b : byte) : Z := Z.of_N (Byte.to_N b).

#[global] Instance byte_eq_dec : EqDecision byte := Byte.byte_eq_dec.

(** The [n] low-order bytes of [v], least significant first. *)
Fixpoint le_bytes (n : nat) (v : Z) : list byte :=
  match n with
  | O => []
  | S n' => byte_of_Z v :: le_bytes n' (v / 256)
  end.

Arguments le_bytes : simpl never.

(** The unsigned little-endian number a byte string spells. *)
Definition le_value (bs : list byte) : Z :=
  foldr (λ b acc, Z_of_byte b + 256 * acc) 0 bs.

(** The IEEE 754 binary64 pattern of a double. *)
Definition float_bits (f : float) : Z :=
  let sign (s : bool) := if s then 2 ^ 63 else 0 in
  match Prim2SF f with
  | S754_zero s => sign s
  | S754_infinity s => sign s + 2047 * 2 ^ 52
  | S754_nan => 2047 * 2 ^ 52 + 2 ^ 51
  | S754_finite s m e =>
      if Z.pos m <? 2 ^ 52 then sign s + Z.pos m
      else sign s + (e + 1075) * 2 ^ 52 + (Z.pos m - 2 ^ 52)
  end.

(** [float(z)] for a Python int: nearest double, or [OverflowError]. *)
Definition float_of_Z (z : Z) : res float :=
  match binary_normalize 53 1024 z 0 false with
  | S754_infinity _ => Raise OverflowError
  | sf => Ok (SF2Prim sf)
  end.

(** [int(f)] for a Python float: truncation towards zero. *)
Definition Z_of_float (f : float) : res Z :=
  match Prim2SF f with
  | S754_zero _ => Ok 0
  | S754_infinity _ => Raise OverflowError
  | S754_nan => Raise ValueError
  | S754_finite s m e =>
      let a := if 0 <=? e then Z.pos m * 2 ^ e else Z.pos m / 2 ^ (- e) in
      Ok (if s then - a else a)
  end.

(** One item of a [struct] format string (always little-endian here) with
    the argument it packs. *)
Inductive field : Type :=
| fmt_H (v : Z)
| fmt_I (v : Z)
| fmt_d (f : float)
| fmt_s (n : nat) (s : list byte).

Definition pack_field (f : field) : res (list byte) :=
  match f with
  | fmt_H v => if (0 <=? v) && (v <=? 65535) then Ok (le_bytes 2 v) else Raise StructError
  | fmt_I v => if (0 <=? v) && (v <=? 4294967295) then Ok (le_bytes 4 v) else Raise StructError
  | fmt_d f => Ok (le_bytes 8 (float_bits f))
  | fmt_s n s => Ok (take n (s ++ replicate n x00))
  end.

Fixpoint struct_pack (fs : list field) : res (list byte) :=
  match fs with
  | [] => Ok []
  | f :: fs' =>
      b ← pack_field f;
      bs ← struct_pack fs';
      Ok (b ++ bs)
  end.

(** Overwrite [bs] into [buf] at [offset]; a negative offset counts from the
    end, and the bytes must fit. *)
Definition write_at (buf : list byte) (offset : Z) (bs : list byte) : res (list byte) :=
  let len := Z.of_nat (length buf) in
  let p := if offset <? 0 then offset + len else offset in
  if (p <? 0) || (len <? p + Z.of_nat (length bs)) then Raise StructError
  else Ok (take (Z.to_nat p) buf ++ bs ++ drop (Z.to_nat p + length bs) buf).

(** [struct.pack_into(fmt, buf, offset, *args)]. *)
Definition pack_into (buf : list byte) (offset : Z) (fs : list field) : res (list byte) :=
  bs ← struct_pack fs;
  write_at buf offset bs.

(** [buf[a:b] = data] on a bytearray. *)
Definition slice_assign (buf : list byte) (a b : Z) (data : list byte) : list byte :=
  let len := Z.of_nat (length buf) in
  let a' := norm_bound len a in
  let b' := Z.max a' (norm_bound len b) in
  take (Z.to_nat a') buf ++ data ++ drop (Z.to_nat b') buf.

(** [bytearray(n)]. *)
Definition bytearray (n : Z) : res (list byte) := np_zeros x00 n.

(** A run of [n] zero bytes. *)
Definition zeros (n : Z) : list byte := replicate (Z.to_nat n) x00.

(** Read [n] bytes at [offset] as an unsigned little-endian number. *)
Definition read_le (buf : list byte) (offset : Z) (n : nat) : Z :=
  le_value (take n (drop (Z.to_nat offset) buf)).

End Bytes.

(** ** The tiled Float32 GeoTIFF writer

    test-float32-geotiff.py, [write_float32_geotiff_js_style]; the copies in
    test-sardine-pipeline.py and compare-writers.py ([sardine_write]) run the
    same steps. *)

Module Writer.
Import Bytes.

Definition TAG_IMAGE_WIDTH : Z := 256.
Definition TAG_IMAGE_LENGTH : Z := 257.
Definition TAG_BITS_PER_SAMPLE : Z := 258.
Definition TAG_COMPRESSION : Z := 259.
Definition TAG_PHOTOMETRIC : Z := 262.
Definition TAG_SAMPLES_PER_PIXEL : Z := 277.
Definition TAG_PLANAR_CONFIG : Z := 284.
Definition TAG_TILE_WIDTH : Z := 322.
Definition TAG_TILE_LENGTH : Z := 323.
Definition TAG_TILE_OFFSETS : Z := 324.
Definition TAG_TILE_BYTE_COUNTS : Z := 325.
Definition TAG_SAMPLE_FORMAT : Z := 339.
Definition TAG_MODEL_PIXEL_SCALE : Z := 33550.
Definition TAG_MODEL_TIEPOINT : Z := 33922.
Definition TAG_GEO_KEY_DIRECTORY : Z := 34735.

(** [TYPE_SHORT = 3], [TYPE_LONG = 4], [TYPE_DOUBLE = 12], and the
    [type_sizes] table over them. *)
Inductive tiff_type : Set := TYPE_SHORT | TYPE_LONG | TYPE_DOUBLE.

Definition type_code (t : tiff_type) : Z :=
  match t with TYPE_SHORT => 3 | TYPE_LONG => 4 | TYPE_DOUBLE => 12 end.

Definition type_sizes (t : tiff_type) : Z :=
  match t with TYPE_SHORT => 2 | TYPE_LONG => 4 | TYPE_DOUBLE => 8 end.

#[global] Instance tiff_type_eq_dec : EqDecision tiff_type.
Proof. solve_decision. Defined.

Definition TILE_SIZE : Z := 512.

Definition KEY_GT_MODEL_TYPE : Z := 1024.
Definition KEY_GT_RASTER_TYPE : Z := 1025.
Definition KEY_PROJECTED_CS_TYPE : Z := 3072.
Definition MODEL_TYPE_PROJECTED : Z := 1.
Definition RASTER_TYPE_PIXEL_IS_AREA : Z := 1.

(** An entry's values mix Python ints and floats. *)
Inductive pyval : Type :=
| VInt (z : Z)
| VFloat (f : float).

Definition int_ (v : pyval) : res Z :=
  match v with VInt z => Ok z | VFloat f => Z_of_float f end.

Definition float_ (v : pyval) : res float :=
  match v with VInt z => float_of_Z z | VFloat f => Ok f end.

(** The tuple [(tag, type, count, values)]. *)
Record entry : Type := Entry {
  tag : Z;
  typ : tiff_type;
  count : Z;
  values : list pyval
}.

(** The dict [{'data': ..., 'byteCount': ...}] of one compressed tile. *)
Record tile : Type := Tile {
  data : list byte;
  byteCount : Z
}.

(** A Float32 sample is its 32-bit pattern; [tobytes] lays the patterns out
    little-endian. *)
Definition tobytes (tile_data : list Z) : list byte :=
  x ← tile_data; le_bytes 4 x.

Definition dict_get {A : Type} (d : gmap string A) (k : string) : res A :=
  match d !! k with
  | Some a => Ok a
  | None => Raise KeyError
  end.

(** [-(-n // TILE_SIZE)]. *)
Definition ceil_tiles (n : Z) : Z := - ((- n) / TILE_SIZE).

(** Step 1, the body of the [ty]/[tx] loops up to [tile_data]: the
    band-interleaved buffer of tile [(tx, ty)]. *)
Definition tile_sample (bands : gmap string (list Z)) (band_names : list string)
    (src_idx dst_idx : Z) (tile_data : list Z) (b : Z) : res (list Z) :=
  name ← getitem band_names b;
  band ← dict_get bands name;
  v ← getitem band src_idx;
  setitem tile_data (dst_idx + b) v.

Definition tile_pixel (bands : gmap string (list Z)) (band_names : list string)
    (width x0 y0 : Z) (py : Z) (tile_data : list Z) (px : Z) : res (list Z) :=
  let num_bands := Z.of_nat (length band_names) in
  let src_idx := (y0 + py) * width + (x0 + px) in
  let dst_idx := (py * TILE_SIZE + px) * num_bands in
  foldM (tile_sample bands band_names src_idx dst_idx) tile_data (range num_bands).

Definition extract_tile (bands : gmap string (list Z)) (band_names : list string)
    (width height : Z) (tx ty : Z) : res (list Z) :=
  let num_bands := Z.of_nat (length band_names) in
  let x0 := tx * TILE_SIZE in
  let y0 := ty * TILE_SIZE in
  let tile_w := Z.min TILE_SIZE (width - x0) in
  let tile_h := Z.min TILE_SIZE (height - y0) in
  tile_data ← np_zeros 0 (TILE_SIZE * TILE_SIZE * num_bands);
  foldM (λ tile_data py,
           foldM (tile_pixel bands band_names width x0 y0 py) tile_data (range tile_w))
        tile_data (range tile_h).

(** The input the specification calls valid for the tiling step: every named
    band is there and holds [width * height] samples. *)
Definition wf_bands (bands : gmap string (list Z)) (band_names : list string)
    (width height : Z) : Prop :=
  ∀ name, name ∈ band_names →
    ∃ band, bands !! name = Some band ∧ Z.of_nat (length band) = width * height.

(** Sample [i] of band number [b]. *)
Definition band_sample (bands : gmap string (list Z)) (band_names : list string)
    (b i : Z) : Z :=
  default 0 (name ← band_names !! Z.to_nat b; band ← bands !! name; band !! Z.to_nat i).

(** The stores of one tile: pixel [(px, py)] of the tile and band [b], where
    they go in the tile buffer and what goes there. *)
Definition tile_keys (tile_w tile_h num_bands : Z) : list (Z * Z * Z) :=
  (py ← range tile_h; pair py <$> range tile_w) ≫= λ p, pair p <$> range num_bands.

Definition tile_index (num_bands : Z) (k : Z * Z * Z) : nat :=
  Z.to_nat ((k.1.1 * TILE_SIZE + k.1.2) * num_bands + k.2).

Definition tile_value (bands : gmap string (list Z)) (band_names : list string)
    (width x0 y0 : Z) (k : Z * Z * Z) : option Z :=
  Some (band_sample bands band_names k.2 ((y0 + k.1.1) * width + (x0 + k.1.2))).

(** The buffer of tile [(tx, ty)], empty if its extraction fails. *)
Definition tile_of (bands : gmap string (list Z)) (band_names : list string)
    (width height tx ty : Z) : list Z :=
  match extract_tile bands band_names width height tx ty with
  | Ok tile_data => tile_data
  | Raise _ => []
  end.

(** Step 2: the entries in the order the writer appends them. *)
Definition build_entries (width height num_bands num_tiles : Z)
    (compressed_tiles : list tile) (min_x max_y pixel_scale_x pixel_scale_y : float)
    (epsg_code : Z) : list entry :=
  [ Entry TAG_IMAGE_WIDTH TYPE_LONG 1 [VInt width];
    Entry TAG_IMAGE_LENGTH TYPE_LONG 1 [VInt height];
    Entry TAG_BITS_PER_SAMPLE TYPE_SHORT num_bands (replicate (Z.to_nat num_bands) (VInt 32));
    Entry TAG_COMPRESSION TYPE_SHORT 1 [VInt 8];
    Entry TAG_PHOTOMETRIC TYPE_SHORT 1 [VInt 1];
    Entry TAG_SAMPLES_PER_PIXEL TYPE_SHORT 1 [VInt num_bands];
    Entry TAG_PLANAR_CONFIG TYPE_SHORT 1 [VInt 1];
    Entry TAG_TILE_WIDTH TYPE_LONG 1 [VInt TILE_SIZE];
    Entry TAG_TILE_LENGTH TYPE_LONG 1 [VInt TILE_SIZE];
    Entry TAG_TILE_OFFSETS TYPE_LONG num_tiles (replicate (Z.to_nat num_tiles) (VInt 0));
    Entry TAG_TILE_BYTE_COUNTS TYPE_LONG num_tiles ((λ t, VInt (byteCount t)) <$> compressed_tiles);
    Entry TAG_SAMPLE_FORMAT TYPE_SHORT num_bands (replicate (Z.to_nat num_bands) (VInt 3));
    Entry TAG_MODEL_TIEPOINT TYPE_DOUBLE 6
      [VInt 0; VInt 0; VInt 0; VFloat min_x; VFloat max_y; VInt 0];
    Entry TAG_MODEL_PIXEL_SCALE TYPE_DOUBLE 3
      [VFloat pixel_scale_x; VFloat pixel_scale_y; VInt 0];
    Entry TAG_GEO_KEY_DIRECTORY TYPE_SHORT 16
      (VInt <$> [1; 1; 0; 3;
                 KEY_GT_MODEL_TYPE; 0; 1; MODEL_TYPE_PROJECTED;
                 KEY_GT_RASTER_TYPE; 0; 1; RASTER_TYPE_PIXEL_IS_AREA;
                 KEY_PROJECTED_CS_TYPE; 0; 1; epsg_code]) ].

(** [entries.sort(key=lambda e: e[0])]: a stable sort on the tag. *)
Fixpoint insert_by_tag (e : entry) (l : list entry) : list entry :=
  match l with
  | [] => [e]
  | x :: l' => if tag e <=? tag x then e :: l else x :: insert_by_tag e l'
  end.

Definition sort_by_tag (l : list entry) : list entry := foldr insert_by_tag [] l.

(** Step 3: the file layout. *)
Definition byte_size (e : entry) : Z := type_sizes (typ e) * count e.

Definition overflow_step (acc : list Z * Z) (ie : Z * entry) : list Z * Z :=
  let '(overflow_entries, overflow_size) := acc in
  if 4 <? byte_size ie.2 then
    let overflow_size := overflow_size + byte_size ie.2 in
    (overflow_entries ++ [ie.1],
     if overflow_size mod 2 =? 0 then overflow_size else overflow_size + 1)
  else acc.

Definition enumerate {A : Type} (l : list A) : list (Z * A) :=
  zip (range (Z.of_nat (length l))) l.

Record layout : Type := Layout {
  header_size : Z;
  ifd_size : Z;
  ifd_offset : Z;
  overflow_entries : list Z;
  overflow_size : Z;
  overflow_offset : Z;
  tile_data_offset : Z;
  total_tile_bytes : Z;
  total_size : Z
}.

Definition sum_byteCount (compressed_tiles : list tile) : Z :=
  foldl (λ acc t, acc + byteCount t) 0 compressed_tiles.

Definition plan_layout (entries : list entry) (compressed_tiles : list tile) : layout :=
  let header_size := 8 in
  let ifd_size := 2 + Z.of_nat (length entries) * 12 + 4 in
  let ifd_offset := header_size in
  let '(overflow_entries, overflow_size) := foldl overflow_step ([], 0) (enumerate entries) in
  let overflow_offset := ifd_offset + ifd_size in
  let tile_data_offset := overflow_offset + overflow_size in
  let total_tile_bytes := sum_byteCount compressed_tiles in
  let total_size := tile_data_offset + total_tile_bytes in
  Layout header_size ifd_size ifd_offset overflow_entries overflow_size
         overflow_offset tile_data_offset total_tile_bytes total_size.

(** The two components of the planning loop's result, and the offset at
    which the overflow span of entry [k] starts: right behind the spans of
    the entries before it. *)
Definition reserved (entries : list entry) : Z :=
  (foldl overflow_step ([], 0) (enumerate entries)).2.

Definition overflow_indices (entries : list entry) : list Z :=
  (foldl overflow_step ([], 0) (enumerate entries)).1.

Definition span_start (entries : list entry) (k : nat) : Z :=
  8 + (2 + Z.of_nat (length entries) * 12 + 4) + reserved (take k entries).

(** Step 4, one turn of the loop over the sorted entries.  The state is
    [(buf, pos, cur_overflow)]. *)
Definition inline_value (buf : list byte) (pos : Z) (e : entry) : res (list byte) :=
  if count e =? 1 then
    match typ e with
    | TYPE_SHORT =>
        v ← getitem (values e) 0; z ← int_ v;
        pack_into buf pos [fmt_H z]
    | TYPE_LONG =>
        v ← getitem (values e) 0; z ← int_ v;
        pack_into buf pos [fmt_I z]
    | TYPE_DOUBLE => Ok buf
    end
  else if (count e =? 2) && bool_decide (typ e = TYPE_SHORT) then
    v0 ← getitem (values e) 0; z0 ← int_ v0;
    v1 ← getitem (values e) 1; z1 ← int_ v1;
    pack_into buf pos [fmt_H z0; fmt_H z1]
  else Ok buf.

Definition even_up (n : Z) : Z := if n mod 2 =? 0 then n else n + 1.

Definition fill_tile_offsets (compressed_tiles : list tile)
    (st : list byte * Z * Z) (j : Z) : res (list byte * Z * Z) :=
  let '(buf, cur_overflow, tile_pos) := st in
  buf ← pack_into buf cur_overflow [fmt_I tile_pos];
  t ← getitem compressed_tiles j;
  Ok (buf, cur_overflow + 4, tile_pos + byteCount t).

Definition overflow_value (t : tiff_type) (st : list byte * Z) (v : pyval)
    : res (list byte * Z) :=
  let '(buf, opos) := st in
  match t with
  | TYPE_SHORT => z ← int_ v; buf ← pack_into buf opos [fmt_H z]; Ok (buf, opos + 2)
  | TYPE_LONG => z ← int_ v; buf ← pack_into buf opos [fmt_I z]; Ok (buf, opos + 4)
  | TYPE_DOUBLE => f ← float_ v; buf ← pack_into buf opos [fmt_d f]; Ok (buf, opos + 8)
  end.

Definition write_entry (compressed_tiles : list tile) (tile_data_offset : Z)
    (st : list byte * Z * Z) (e : entry) : res (list byte * Z * Z) :=
  let '(buf, pos, cur_overflow) := st in
  buf ← pack_into buf pos [fmt_H (tag e); fmt_H (type_code (typ e)); fmt_I (count e)];
  let pos := pos + 8 in
  if byte_size e <=? 4 then
    buf ← inline_value buf pos e;
    Ok (buf, pos + 4, cur_overflow)
  else if tag e =? TAG_TILE_OFFSETS then
    buf ← pack_into buf pos [fmt_I cur_overflow];
    let pos := pos + 4 in
    '(buf, cur_overflow, _) ←
      foldM (fill_tile_offsets compressed_tiles) (buf, cur_overflow, tile_data_offset)
            (range (Z.of_nat (length compressed_tiles)));
    Ok (buf, pos, even_up cur_overflow)
  else
    buf ← pack_into buf pos [fmt_I cur_overflow];
    let pos := pos + 4 in
    '(buf, _) ← foldM (overflow_value (typ e)) (buf, cur_overflow) (values e);
    Ok (buf, pos, even_up (cur_overflow + byte_size e)).

Definition write_tile (st : list byte * Z) (t : tile) : list byte * Z :=
  let '(buf, tile_write_pos) := st in
  (slice_assign buf tile_write_pos (tile_write_pos + byteCount t) (data t),
   tile_write_pos + byteCount t).

(** Step 4 as a whole: the buffer handed to [f.write]. *)
Definition serialize (entries : list entry) (compressed_tiles : list tile) (lay : layout)
    : res (list byte) :=
  buf ← bytearray (total_size lay);
  buf ← pack_into buf 0 [fmt_s 2 [x49; x49]; fmt_H 42; fmt_I (ifd_offset lay)];
  let pos := ifd_offset lay in
  buf ← pack_into buf pos [fmt_H (Z.of_nat (length entries))];
  let pos := pos + 2 in
  '(buf, pos, _) ←
    foldM (write_entry compressed_tiles (tile_data_offset lay))
          (buf, pos, overflow_offset lay) entries;
  buf ← pack_into buf pos [fmt_I 0];
  Ok (foldl write_tile (buf, tile_data_offset lay) compressed_tiles).1.

(** *** The file the serializer is expected to produce

    Region by region: the bytes of a value, the 4-byte value field and the
    12-byte record of an entry, the overflow block of an entry, and the whole
    file. *)
Definition value_image (t : tiff_type) (v : pyval) : list byte :=
  match t, v with
  | TYPE_SHORT, VInt z => le_bytes 2 z
  | TYPE_LONG, VInt z => le_bytes 4 z
  | TYPE_DOUBLE, v =>
      le_bytes 8 (float_bits (match float_ v with Ok f => f | Raise _ => 0%float end))
  | _, VFloat _ => []
  end.

Definition inline_field (e : entry) : list byte :=
  match typ e, values e with
  | TYPE_SHORT, [VInt z] => le_bytes 2 z ++ [x00; x00]
  | TYPE_SHORT, [VInt z0; VInt z1] => le_bytes 2 z0 ++ le_bytes 2 z1
  | TYPE_LONG, [VInt z] => le_bytes 4 z
  | _, _ => [x00; x00; x00; x00]
  end.

Definition value_field (e : entry) (ptr : Z) : list byte :=
  if byte_size e <=? 4 then inline_field e else le_bytes 4 ptr.

Definition record_image (e : entry) (ptr : Z) : list byte :=
  le_bytes 2 (tag e) ++ le_bytes 2 (type_code (typ e)) ++ le_bytes 4 (count e)
  ++ value_field e ptr.

(** The offsets of the tiles laid end to end from [tile_pos]. *)
Fixpoint tile_offsets (tile_pos : Z) (tiles : list tile) : list Z :=
  match tiles with
  | [] => []
  | t :: tiles' => tile_pos :: tile_offsets (tile_pos + byteCount t) tiles'
  end.

Definition block_image (tiles : list tile) (tile_data_offset : Z) (e : entry) : list byte :=
  if byte_size e <=? 4 then []
  else if tag e =? TAG_TILE_OFFSETS then tile_offsets tile_data_offset tiles ≫= le_bytes 4
  else values e ≫= value_image (typ e).

Definition header_image (entries : list entry) : list byte :=
  [x49; x49] ++ le_bytes 2 42 ++ le_bytes 4 8 ++ le_bytes 2 (Z.of_nat (length entries)).

Definition records_image (entries : list entry) (k : nat) : list byte :=
  mjoin (imap (λ i e, record_image e (span_start entries i)) (take k entries)).

Definition blocks_image (entries : list entry) (tiles : list tile) (k : nat) : list byte :=
  take k entries ≫= block_image tiles (span_start entries (length entries)).

Definition file_image (entries : list entry) (tiles : list tile) : list byte :=
  header_image entries ++ records_image entries (length entries) ++ le_bytes 4 0
  ++ blocks_image entries tiles (length entries) ++ (tiles ≫= data).

(** The buffer while the directory loop runs: header, the records written so
    far, zeros up to the overflow region, the blocks written so far, zeros to
    the end. *)
Definition regions (hdr recs : list byte) (gap : Z) (blocks : list byte) (rest : Z)
    : list byte :=
  hdr ++ recs ++ zeros gap ++ blocks ++ zeros rest.

Definition partial_image (entries : list entry) (tiles : list tile) (k : nat) : list byte :=
  regions (header_image entries) (records_image entries k)
          (span_start entries 0 - (10 + 12 * Z.of_nat k))
          (blocks_image entries tiles k)
          (span_start entries (length entries) + sum_byteCount tiles
           - span_start entries k).

(** What the serializer needs of its input to go through: values that fit
    their field, counts that match, tiles that know their length. *)
Definition value_ok (t : tiff_type) (v : pyval) : Prop :=
  match t, v with
  | TYPE_SHORT, VInt z => 0 ≤ z ≤ 65535
  | TYPE_LONG, VInt z => 0 ≤ z ≤ 4294967295
  | TYPE_DOUBLE, v => ∃ f, float_ v = Ok f
  | _, VFloat _ => False
  end.

Definition wf_entry (tiles : list tile) (e : entry) : Prop :=
  0 ≤ tag e ≤ 65535
  ∧ count e = Z.of_nat (length (values e))
  ∧ count e ≤ 4294967295
  ∧ Forall (value_ok (typ e)) (values e)
  ∧ (tag e = TAG_TILE_OFFSETS → 4 < byte_size e →
     byte_size e = 4 * Z.of_nat (length tiles)).

Definition wf_tile (t : tile) : Prop := byteCount t = Z.of_nat (length (data t)).




(** *** The calls that leave the interpreter

    [zlib.compress] and the final [open(path, 'wb')] are the writer's only
    effects; [world] records them. *)
Record world : Type := World {
  files : gmap string (list byte);
  zlib_calls : nat
}.

Definition M (A : Type) : Type := world → res A * world.

#[global] Instance M_ret : MRet M := λ A a w, (Ok a, w).
#[global] Instance M_bind : MBind M := λ A B f m w,
  match m w with
  | (Ok a, w') => f a w'
  | (Raise e, w') => (Raise e, w')
  end.

Definition lift {A : Type} (r : res A) : M A := λ w, (r, w).

Fixpoint foldW {S X : Type} (body : S → X → M S) (s : S) (xs : list X) : M S :=
  match xs with
  | [] => mret s
  | x :: xs' => s' ← body s x; foldW body s' xs'
  end.


Section Encoder.

(** [zlib.compress(data, level)]. *)
Variable zlib_compress : list byte → Z → list byte.

Definition compress (tile_bytes : list byte) (level : Z) : M (list byte) :=
  λ w, (Ok (zlib_compress tile_bytes level), World (files w) (S (zlib_calls w))).

Definition compress_tile (bands : gmap string (list Z)) (band_names : list string)
    (width height : Z) (ty : Z) (compressed_tiles : list tile) (tx : Z) : M (list tile) :=
  tile_data ← lift (extract_tile bands band_names width height tx ty);
  let tile_bytes := tobytes tile_data in
  compressed ← compress tile_bytes 6;
  mret (compressed_tiles ++ [Tile compressed (Z.of_nat (length compressed))]).

Definition compress_tiles (bands : gmap string (list Z)) (band_names : list string)
    (width height : Z) : M (list tile) :=
  let tiles_x := ceil_tiles width in
  let tiles_y := ceil_tiles height in
  foldW (λ compressed_tiles ty,
           foldW (compress_tile bands band_names width height ty)
                 compressed_tiles (range tiles_x))
        [] (range tiles_y).


(** The compressed tile of a buffer, and the tile list of a raster in the
    order of the two loops: tile rows top to bottom, each left to right. *)
Definition deflate_tile (tile_data : list Z) : tile :=
  let compressed := zlib_compress (tobytes tile_data) 6 in
  Tile compressed (Z.of_nat (length compressed)).

Definition tiles_of (bands : gmap string (list Z)) (band_names : list string)
    (width height : Z) : list tile :=
  ty ← range (ceil_tiles height);
  (λ tx, deflate_tile (tile_of bands band_names width height tx ty))
    <$> range (ceil_tiles width).

End Encoder.

End Writer.

(** ** The stripped writer's geo key directory

    test-geotiff-georef.py, [write_minimal_geotiff]: the only writer of the
    repository that looks at the EPSG range. *)

Module Georef.
Import Writer.

Definition KEY_GEOGRAPHIC_TYPE : Z := 2048.
Definition MODEL_TYPE_GEOGRAPHIC : Z := 2.

Definition is_geographic (epsg : Z) : bool := (4000 <=? epsg) && (epsg <? 5000).

Definition geo_keys (epsg : Z) : list Z :=
  let model_type := if is_geographic epsg then MODEL_TYPE_GEOGRAPHIC else MODEL_TYPE_PROJECTED in
  let cs_key := if is_geographic epsg then KEY_GEOGRAPHIC_TYPE else KEY_PROJECTED_CS_TYPE in
  [1; 1; 0; 3;
   KEY_GT_MODEL_TYPE; 0; 1; model_type;
   KEY_GT_RASTER_TYPE; 0; 1; RASTER_TYPE_PIXEL_IS_AREA;
   cs_key; 0; 1; epsg].

Definition geo_key_entry (epsg : Z) : entry :=
  Entry TAG_GEO_KEY_DIRECTORY TYPE_SHORT (Z.of_nat (length (geo_keys epsg)))
        (VInt <$> geo_keys epsg).

End Georef.

(** ** Reading side

    The repository reads its files back with rasterio only.  The functions
    below are the reading procedure the specification describes for a
    compliant reader: parse the directory, find each tile through the
    tile-offset and tile-byte-count arrays, inflate it, and index the
    band-interleaved tile; a pixel inside the raster never lands on padding. *)

Module Reader.
Import Bytes.

(** A directory record: tag, type code, count, and where its 4-byte value
    field sits in the file. *)
Record ifd_entry : Type := IfdEntry {
  e_tag : Z;
  e_type : Z;
  e_count : Z;
  e_field : Z
}.

Definition entry_at (buf : list byte) (ifd : Z) (i : Z) : ifd_entry :=
  let p := ifd + 2 + 12 * i in
  IfdEntry (read_le buf p 2) (read_le buf (p + 2) 2) (read_le buf (p + 4) 4) (p + 8).

Definition directory (buf : list byte) : option (list ifd_entry) :=
  if bool_decide (take 2 buf = [x49; x49]) && (read_le buf 2 2 =? 42) then
    let ifd := read_le buf 4 4 in
    Some (entry_at buf ifd <$> range (read_le buf ifd 2))
  else None.

Definition find_entry (buf : list byte) (tag : Z) : option ifd_entry :=
  dir ← directory buf;
  snd <$> list_find (λ e, e_tag e = tag) dir.

Definition type_size (code : Z) : option Z :=
  if code =? 3 then Some 2 else if code =? 4 then Some 4
  else if code =? 12 then Some 8 else None.

(** The values of an integer-typed tag: in the value field when they fit in
    4 bytes, behind the pointer it holds otherwise. *)
Definition tag_values (buf : list byte) (tag : Z) : option (list Z) :=
  e ← find_entry buf tag;
  sz ← type_size (e_type e);
  let base := if sz * e_count e <=? 4 then e_field e else read_le buf (e_field e) 4 in
  Some ((λ k, read_le buf (base + k * sz) (Z.to_nat sz)) <$> range (e_count e)).

Definition tag_value (buf : list byte) (tag : Z) : option Z :=
  vs ← tag_values buf tag; vs !! 0%nat.

Section Decoder.

(** The inverse of the compressor, as far as the reader knows it. *)
Variable zlib_decompress : list byte → option (list byte).

(** The bytes of tile [k], inflated. *)
Definition read_tile (buf : list byte) (k : Z) : option (list byte) :=
  offsets ← tag_values buf 324;
  counts ← tag_values buf 325;
  o ← offsets !! Z.to_nat k;
  c ← counts !! Z.to_nat k;
  zlib_decompress (take (Z.to_nat c) (drop (Z.to_nat o) buf)).

(** Band [b] of pixel [(x, y)], as a 32-bit pattern. *)
Definition read_pixel (buf : list byte) (b x y : Z) : option Z :=
  width ← tag_value buf 256;
  spp ← tag_value buf 277;
  tw ← tag_value buf 322;
  th ← tag_value buf 323;
  let across := - ((- width) / tw) in
  raw ← read_tile buf ((y / th) * across + x / tw);
  let i := ((y mod th) * tw + x mod tw) * spp + b in
  if 4 * i + 4 <=? Z.of_nat (length raw) then Some (read_le raw (4 * i) 4) else None.

End Decoder.

End Reader.

(** ** Directory contents as the specification names them *)

(** The value a geo key directory (header of four shorts, then four shorts per
    key) gives to [key]. *)
Fixpoint geo_key_records (dir : list Z) (fuel : nat) : list (Z * Z) :=
  match fuel, dir with
  | S fuel', k :: _ :: _ :: v :: rest => (k, v) :: geo_key_records rest fuel'
  | _, _ => []
  end.

Definition geo_key_value (dir : list Z) (key : Z) : option Z :=
  match dir with
  | _ :: _ :: _ :: n :: records =>
      snd <$> (snd <$> list_find (λ kv, kv.1 = key) (geo_key_records records (Z.to_nat n)))
  | _ => None
  end.

(** The entry carrying [t], and the integers among an entry's values. *)
Definition find_tag (entries : list Writer.entry) (t : Z) : option Writer.entry :=
  snd <$> list_find (λ e, Writer.tag e = t) entries.

Definition ints (vs : list Writer.pyval) : list Z :=
  omap (λ v, match v with Writer.VInt z => Some z | Writer.VFloat _ => None end) vs.

Definition entry_ints (e : Writer.entry) : list Z := ints (Writer.values e).

(** A stand-in for [zlib.compress] in closed examples: the payload stored
    behind the two bytes a zlib stream starts with. *)
Definition stored (tile_bytes : list byte) (level : Z) : list byte :=
  x78 :: x9c :: tile_bytes.

Definition unstored (payload : list byte) : option (list byte) :=
  match payload with
  | b0 :: b1 :: tile_bytes =>
      if bool_decide (b0 = x78) && bool_decide (b1 = x9c) then Some tile_bytes else None
  | _ => None
  end.

(** * Properties *)

(** ** Generic facts about the loops *)

Lemma foldM_app {S X : Type} (body : S → X → res S) (s : S) (xs ys : list X) :
  foldM body s (xs ++ ys) = s' ← foldM body s xs; foldM body s' ys.
Proof.
  revert s. induction xs as [|x xs IH]; intros s; simpl; [done|].
  destruct (body s x); simpl; [apply IH | done].
Qed.

(** A loop whose body cannot fail on the states it meets is a plain fold. *)
Lemma foldM_total {S X : Type} (Inv : S → Prop) (body : S → X → res S)
    (step : S → X → S) (xs : list X) (s : S) :
  Inv s →
  (∀ s x, Inv s → x ∈ xs → body s x = Ok (step s x) ∧ Inv (step s x)) →
  foldM body s xs = Ok (foldl step s xs) ∧ Inv (foldl step s xs).
Proof.
  revert s. induction xs as [|x xs IH]; intros s Hs Hstep; simpl; [done|].
  destruct (Hstep s x Hs) as [-> Hs']; [left|].
  apply IH; [done|]. intros s0 x0 H0 Hin. apply Hstep; [done | by right].
Qed.

(** Two nested [for] loops run the body over the pairs, outer index first. *)
Lemma foldM_nested {S X Y : Type} (body : X → S → Y → res S) (s : S)
    (xs : list X) (ys : list Y) :
  foldM (λ s x, foldM (body x) s ys) s xs
  = foldM (λ s p, body p.1 s p.2) s (x ← xs; pair x <$> ys).
Proof.
  revert s. induction xs as [|x xs IH]; intros s; [done|].
  cbn [foldM]. change (mbind ?f (x :: xs)) with (f x ++ mbind f xs).
  rewrite foldM_app.
  assert (∀ s0, foldM (λ s1 p, body p.1 s1 p.2) s0 (pair x <$> ys) = foldM (body x) s0 ys) as ->.
  { clear. induction ys as [|y ys IH]; intros s0; simpl; [done|].
    destruct (body x s0 y); [apply IH | done]. }
  destruct (foldM (body x) s ys); simpl; [apply IH | done].
Qed.

Lemma elem_of_range (n k : Z) : k ∈ range n ↔ 0 ≤ k < n.
Proof. unfold range. rewrite elem_of_seqZ. lia. Qed.

Lemma getitem_Ok {A : Type} (l : list A) (i : Z) (x : A) :
  0 ≤ i → l !! Z.to_nat i = Some x → getitem l i = Ok x.
Proof.
  intros Hi Hx. unfold getitem, norm_index.
  pose proof (lookup_lt_Some _ _ _ Hx) as Hlt.
  destruct (Z.ltb_spec i 0); [lia|].
  destruct (Z.ltb_spec i 0); [lia|].
  destruct (Z.leb_spec (Z.of_nat (length l)) i); [lia|].
  simpl. by rewrite Hx.
Qed.

Lemma setitem_Ok {A : Type} (l : list A) (i : Z) (x : A) :
  0 ≤ i < Z.of_nat (length l) → setitem l i x = Ok (<[Z.to_nat i := x]> l).
Proof.
  intros Hi. unfold setitem, norm_index.
  destruct (Z.ltb_spec i 0); [lia|].
  destruct (Z.ltb_spec i 0); [lia|].
  destruct (Z.leb_spec (Z.of_nat (length l)) i); [lia|]. done.
Qed.


(** ** CoordinateCorrector *)




(** ** Geo key directory *)

(** The stripped writer selects the model type and the coordinate-system key
    from the EPSG range, as the specification asks. *)
Lemma minimal_writer_geo_keys (e : Z) :
  let dir := Georef.geo_keys e in
  if Georef.is_geographic e
  then geo_key_value dir Writer.KEY_GT_MODEL_TYPE = Some 2
       ∧ geo_key_value dir Georef.KEY_GEOGRAPHIC_TYPE = Some e
  else geo_key_value dir Writer.KEY_GT_MODEL_TYPE = Some 1
       ∧ geo_key_value dir Writer.KEY_PROJECTED_CS_TYPE = Some e.
Proof.
  unfold Georef.geo_keys. destruct (Georef.is_geographic e); split; reflexivity.
Qed.

Lemma is_geographic_spec (e : Z) : Georef.is_geographic e = true ↔ 4000 ≤ e < 5000.
Proof. unfold Georef.is_geographic. rewrite andb_true_iff. lia. Qed.

(** C3, on the tiled Float32 writer.  Whatever the raster, the directory
    built for EPSG code 4326 declares model type 1 (projected) and carries the
    code under the projected key 3072; the geographic key 2048 is absent.  The
    specification asks for model type 2 and key 2048 on this code. *)
Theorem float32_writer_geo_keys_4326 (width height num_bands num_tiles : Z)
    (compressed_tiles : list Writer.tile) (min_x max_y psx psy : float) :
  ∃ e, find_tag (Writer.sort_by_tag
                   (Writer.build_entries width height num_bands num_tiles compressed_tiles
                                         min_x max_y psx psy 4326))
                Writer.TAG_GEO_KEY_DIRECTORY = Some e
       ∧ geo_key_value (entry_ints e) Writer.KEY_GT_MODEL_TYPE = Some 1
       ∧ geo_key_value (entry_ints e) Writer.KEY_PROJECTED_CS_TYPE = Some 4326
       ∧ geo_key_value (entry_ints e) Georef.KEY_GEOGRAPHIC_TYPE = None.
Proof. eexists. repeat split; reflexivity. Qed.

(** The same, for every code: the tiled writer never looks at the range. *)
Lemma float32_writer_geo_keys (width height num_bands num_tiles : Z)
    (compressed_tiles : list Writer.tile) (min_x max_y psx psy : float) (epsg : Z) :
  ∃ e, find_tag (Writer.sort_by_tag
                   (Writer.build_entries width height num_bands num_tiles compressed_tiles
                                         min_x max_y psx psy epsg))
                Writer.TAG_GEO_KEY_DIRECTORY = Some e
       ∧ entry_ints e = [1; 1; 0; 3; 1024; 0; 1; 1; 1025; 0; 1; 1; 3072; 0; 1; epsg].
Proof. eexists. split; reflexivity. Qed.

(** ** LayoutPlanner *)

Section Layout.
Import Writer.

Lemma enumerate_snoc {A : Type} (l : list A) (x : A) :
  enumerate (l ++ [x]) = enumerate l ++ [(Z.of_nat (length l), x)].
Proof.
  unfold enumerate, range. rewrite length_app. simpl length.
  replace (Z.of_nat (length l + 1)) with (Z.of_nat (S (length l))) by lia.
  rewrite seqZ_S, Z.add_0_l.
  rewrite zip_with_app by (rewrite length_seqZ; lia). done.
Qed.

Lemma reserved_snoc (entries : list entry) (e : entry) :
  reserved (entries ++ [e])
  = if 4 <? byte_size e then even_up (reserved entries + byte_size e) else reserved entries.
Proof.
  unfold reserved. rewrite enumerate_snoc, foldl_app. simpl.
  destruct (foldl overflow_step ([], 0) (enumerate entries)) as [idx sz].
  unfold overflow_step; simpl. destruct (4 <? byte_size e); done.
Qed.

Lemma overflow_indices_snoc (entries : list entry) (e : entry) :
  overflow_indices (entries ++ [e])
  = overflow_indices entries
    ++ (if 4 <? byte_size e then [Z.of_nat (length entries)] else []).
Proof.
  unfold overflow_indices. rewrite enumerate_snoc, foldl_app. simpl.
  destruct (foldl overflow_step ([], 0) (enumerate entries)) as [idx sz].
  unfold overflow_step; simpl. destruct (4 <? byte_size e); simpl; [done|].
  by rewrite app_nil_r.
Qed.

Lemma even_up_spec (n : Z) : n ≤ even_up n < n + 2 ∧ even_up n mod 2 = 0.
Proof.
  unfold even_up. destruct (Z.eqb_spec (n mod 2) 0); [lia|].
  split; [lia|]. pose proof (Z.mod_pos_bound n 2 ltac:(lia)).
  replace (n + 1) with (n mod 2 + 1 + 2 * (n / 2)) by (pose proof (Z.div_mod n 2); lia).
  rewrite Z.mul_comm, Z.mod_add by lia.
  replace (n mod 2) with 1 by lia. done.
Qed.

Lemma reserved_even (entries : list entry) : reserved entries mod 2 = 0.
Proof.
  induction entries as [|e entries IH] using rev_ind; [done|].
  rewrite reserved_snoc. destruct (4 <? byte_size e); [|done].
  apply even_up_spec.
Qed.

Lemma reserved_nonneg (entries : list entry) : 0 ≤ reserved entries.
Proof.
  induction entries as [|e entries IH] using rev_ind; [done|].
  rewrite reserved_snoc. destruct (Z.ltb_spec 4 (byte_size e)); [|done].
  pose proof (even_up_spec (reserved entries + byte_size e)). lia.
Qed.

Lemma sum_byteCount_foldr (tiles : list tile) :
  sum_byteCount tiles = foldr Z.add 0 (byteCount <$> tiles).
Proof.
  unfold sum_byteCount.
  assert (∀ a, foldl (λ acc t, acc + byteCount t) a tiles
               = a + foldr Z.add 0 (byteCount <$> tiles)) as H.
  { induction tiles as [|t tiles IH]; intros a; csimpl; [lia|]. rewrite IH. lia. }
  rewrite H. lia.
Qed.

Lemma overflow_indices_bound (entries : list entry) (i : Z) :
  i ∈ overflow_indices entries → 0 ≤ i < Z.of_nat (length entries).
Proof.
  revert i. induction entries as [|x entries IH] using rev_ind; intros i.
  - intros Hi. by apply elem_of_nil in Hi.
  - rewrite overflow_indices_snoc, elem_of_app, length_app. simpl.
    intros [Hi|Hi]; [apply IH in Hi; lia|].
    destruct (4 <? byte_size x).
    + apply list_elem_of_singleton in Hi. lia.
    + by apply elem_of_nil in Hi.
Qed.

Lemma overflow_indices_lookup (entries : list entry) (k : nat) (e : entry) :
  entries !! k = Some e →
  Z.of_nat k ∈ overflow_indices entries ↔ 4 < byte_size e.
Proof.
  revert k e. induction entries as [|x entries IH] using rev_ind; [done|].
  intros k e Hk. rewrite overflow_indices_snoc, elem_of_app.
  destruct (decide (k < length entries)%nat) as [Hlt|Hge].
  - rewrite lookup_app_l in Hk by done. rewrite <- (IH _ _ Hk).
    split; [|by left]. intros [H|H]; [done|].
    destruct (4 <? byte_size x).
    + apply list_elem_of_singleton in H. lia.
    + by apply elem_of_nil in H.
  - pose proof (lookup_lt_Some _ _ _ Hk) as Hlen.
    rewrite length_app in Hlen. simpl in Hlen.
    assert (k = length entries) as -> by lia.
    rewrite list_lookup_middle in Hk by done. injection Hk as ->.
    destruct (Z.ltb_spec 4 (byte_size e)).
    + split; [done|]. intros _. right. by apply list_elem_of_singleton.
    + split; [|lia]. intros [H'|H'].
      * apply overflow_indices_bound in H'. lia.
      * by apply elem_of_nil in H'.
Qed.

Lemma plan_layout_fields (entries : list entry) (tiles : list tile) :
  plan_layout entries tiles
  = Layout 8 (2 + Z.of_nat (length entries) * 12 + 4) 8
           (overflow_indices entries) (reserved entries)
           (8 + (2 + Z.of_nat (length entries) * 12 + 4))
           (8 + (2 + Z.of_nat (length entries) * 12 + 4) + reserved entries)
           (sum_byteCount tiles)
           (8 + (2 + Z.of_nat (length entries) * 12 + 4) + reserved entries
            + sum_byteCount tiles).
Proof.
  unfold plan_layout, overflow_indices, reserved.
  by destruct (foldl overflow_step ([], 0) (enumerate entries)).
Qed.

(** C4. The planned layout: header in [0, 8); directory at 8, of size
    [2 + 12 * entryCount + 4]; the overflow region right behind it, cut into
    consecutive spans in entry order, one per entry of more than 4 value
    bytes and none for the others, each span as long as the entry's bytes
    rounded up to even, so that every span starts and ends on an even
    offset; the tile payload right behind the last span; the total size the
    payload start plus the sum of the compressed lengths. *)
Theorem plan_layout_regions (entries : list entry) (tiles : list tile) :
  let lay := plan_layout entries tiles in
  let n := length entries in
  header_size lay = 8
  ∧ ifd_offset lay = 8
  ∧ ifd_size lay = 2 + 12 * Z.of_nat n + 4
  ∧ overflow_offset lay = ifd_offset lay + ifd_size lay
  ∧ span_start entries 0 = overflow_offset lay
  ∧ (∀ k e, entries !! k = Some e →
       span_start entries k mod 2 = 0
       ∧ span_start entries (S k) mod 2 = 0
       ∧ if decide (4 < byte_size e)
         then span_start entries k + byte_size e ≤ span_start entries (S k)
              < span_start entries k + byte_size e + 2
              ∧ Z.of_nat k ∈ overflow_entries lay
         else span_start entries (S k) = span_start entries k
              ∧ Z.of_nat k ∉ overflow_entries lay)
  ∧ span_start entries n = tile_data_offset lay
  ∧ tile_data_offset lay = overflow_offset lay + overflow_size lay
  ∧ total_size lay = tile_data_offset lay + foldr Z.add 0 (byteCount <$> tiles).
Proof.
  intros lay n. subst lay. rewrite plan_layout_fields. simpl.
  rewrite <- sum_byteCount_foldr.
  unfold span_start. rewrite take_0. change (reserved []) with 0.
  split_and!; try lia.
  - intros k e Hk.
    pose proof (reserved_even (take k entries)) as Hev.
    pose proof (reserved_even (take (S k) entries)) as Hev'.
    pose proof (overflow_indices_lookup entries k e Hk) as Hidx.
    rewrite (take_S_r _ _ _ Hk) in *. rewrite reserved_snoc in *.
    set (base := 8 + (2 + Z.of_nat (length entries) * 12 + 4)).
    assert (base mod 2 = 0) as Hbase.
    { subst base. replace (8 + (2 + Z.of_nat (length entries) * 12 + 4))
        with (0 + (7 + Z.of_nat (length entries) * 6) * 2) by lia.
      by rewrite Z.mod_add by lia. }
    assert (∀ r, r mod 2 = 0 → (base + r) mod 2 = 0) as Hsum.
    { intros r Hr. rewrite Z.add_mod, Hbase, Hr by lia. done. }
    split; [by apply Hsum|]. split; [by apply Hsum|].
    destruct (Z.ltb_spec 4 (byte_size e)); case_decide; try lia.
    + pose proof (even_up_spec (reserved (take k entries) + byte_size e)).
      split; [lia | by apply Hidx].
    + split; [done | by rewrite Hidx].
  - subst n. by rewrite firstn_all.
Qed.

End Layout.

(** ** Input validation *)

Section Validation.
Import Writer.






End Validation.

(** ** Arrays filled by loops *)

Lemma length_scatter {K A : Type} (idx : K → nat) (f : K → option A)
    (out : list A) (ks : list K) :
  length (scatter idx f out ks) = length out.
Proof.
  revert out. induction ks as [|k ks IH]; intros out; [done|].
  unfold scatter in *. simpl. rewrite IH. destruct (f k); [apply length_insert | done].
Qed.

Lemma scatter_lookup_notin {K A : Type} (idx : K → nat) (f : K → option A)
    (out : list A) (ks : list K) (i : nat) :
  i ∉ idx <$> ks → scatter idx f out ks !! i = out !! i.
Proof.
  revert out. induction ks as [|k ks IH]; intros out Hi; [done|].
  rewrite fmap_cons, not_elem_of_cons in Hi. destruct Hi as [Hne Hi].
  unfold scatter in *. simpl. rewrite IH by done.
  destruct (f k); [|done]. by rewrite list_lookup_insert_ne.
Qed.

Lemma scatter_lookup_in {K A : Type} (idx : K → nat) (f : K → option A)
    (out : list A) (ks : list K) (k : K) :
  NoDup (idx <$> ks) → k ∈ ks → (idx k < length out)%nat →
  scatter idx f out ks !! idx k
  = match f k with Some v => Some v | None => out !! idx k end.
Proof.
  revert out. induction ks as [|k0 ks IH]; intros out Hnd Hk Hlen.
  - by apply elem_of_nil in Hk.
  - rewrite fmap_cons, NoDup_cons in Hnd. destruct Hnd as [Hfresh Hnd].
    change (scatter idx f out (k0 :: ks))
      with (scatter idx f (match f k0 with Some v => <[idx k0 := v]> out | None => out end) ks).
    apply elem_of_cons in Hk as [->|Hk].
    + rewrite scatter_lookup_notin by done.
      destruct (f k0); [by apply list_lookup_insert_eq | done].
    + assert (idx k0 ≠ idx k) as Hne.
      { intros Heq. apply Hfresh. rewrite Heq. by apply list_elem_of_fmap_2. }
      rewrite IH; [|done|done|by destruct (f k0); rewrite ?length_insert].
      destruct (f k); [done|].
      destruct (f k0); [by rewrite list_lookup_insert_ne | done].
Qed.

Lemma concat_bind {A : Type} (ls : list (list A)) : concat ls = ls ≫= id.
Proof. induction ls as [|l ls IH]; [done|]. simpl. by rewrite IH. Qed.


Lemma lookup_bind_uniform {A B : Type} (f : A → list B) (l : list A) (n r c : nat) :
  (∀ x, x ∈ l → length (f x) = n) → (c < n)%nat →
  (l ≫= f) !! (r * n + c)%nat = x ← l !! r; f x !! c.
Proof.
  intros Hlen Hc. revert r. induction l as [|x l IH]; intros r; [done|].
  change ((x :: l) ≫= f) with (f x ++ (l ≫= f)).
  assert (length (f x) = n) as Hx by (apply Hlen; left).
  destruct r as [|r].
  - simpl. rewrite lookup_app_l by lia. done.
  - rewrite lookup_app_r by (rewrite Hx; lia).
    replace (S r * n + c - length (f x))%nat with (r * n + c)%nat by (rewrite Hx; lia).
    rewrite IH; [done|]. intros y Hy. apply Hlen. by right.
Qed.

Lemma length_bind_uniform {A B : Type} (f : A → list B) (l : list A) (n : nat) :
  (∀ x, x ∈ l → length (f x) = n) → length (l ≫= f) = (length l * n)%nat.
Proof.
  intros Hlen. induction l as [|x l IH]; [done|].
  change ((x :: l) ≫= f) with (f x ++ (l ≫= f)).
  rewrite length_app, IH, Hlen; [simpl; lia | left | intros y Hy; apply Hlen; by right].
Qed.

Lemma length_range (n : Z) : length (range n) = Z.to_nat n.
Proof. apply length_seqZ. Qed.

Lemma lookup_range (n : Z) (i : nat) :
  Z.of_nat i < n → range n !! i = Some (Z.of_nat i).
Proof. intros Hi. unfold range. by rewrite lookup_seqZ_lt. Qed.

Lemma NoDup_range (n : Z) : NoDup (range n).
Proof. apply NoDup_seqZ. Qed.


(** ** Decimator *)

Section Decimator.
Import Decimate.

Lemma fmap_as_bind {A B : Type} (f : A → B) (l : list A) :
  f <$> l = l ≫= λ x, [f x].
Proof. induction l as [|x l IH]; [done|]. csimpl. by rewrite IH. Qed.






Lemma elem_of_cells (rows ew : Z) (p : Z * Z) :
  p ∈ cells rows ew ↔ 0 ≤ p.1 < rows ∧ 0 ≤ p.2 < ew.
Proof.
  unfold cells. rewrite list_elem_of_bind. split.
  - intros (oy & Hp & Hoy). apply list_elem_of_fmap in Hp as (ox & -> & Hox).
    apply elem_of_range in Hoy, Hox. done.
  - intros [Hy Hx]. exists p.1. rewrite elem_of_range. split; [|done].
    apply list_elem_of_fmap. exists p.2. rewrite elem_of_range. by destruct p.
Qed.


Lemma NoDup_cells (rows ew : Z) : NoDup (cells rows ew).
Proof.
  unfold cells. apply NoDup_bind.
  - intros x1 x2 y _ _ H1 H2.
    apply list_elem_of_fmap in H1 as (? & -> & _).
    apply list_elem_of_fmap in H2 as (? & [= ->] & _). done.
  - intros x _. apply NoDup_fmap_2; [|apply NoDup_range]. by intros ?? [= ->].
  - apply NoDup_range.
Qed.








(** *** The vectorised reader *)










End Decimator.

(** ** TileCompressor *)

Section Tiles.
Import Writer.

Lemma mixed_radix_inj (n r c r' c' : Z) :
  0 ≤ c < n → 0 ≤ c' < n → r * n + c = r' * n + c' → r = r' ∧ c = c'.
Proof. intros Hc Hc' Heq. assert (r = r') by nia. subst. lia. Qed.

Lemma ceil_tiles_spec (n : Z) :
  (ceil_tiles n - 1) * TILE_SIZE < n ≤ ceil_tiles n * TILE_SIZE.
Proof.
  unfold ceil_tiles, TILE_SIZE.
  pose proof (Z.div_mod (- n) 512 ltac:(lia)).
  pose proof (Z.mod_pos_bound (- n) 512 ltac:(lia)). lia.
Qed.

Lemma ceil_tiles_pos (n : Z) : 1 ≤ n → 1 ≤ ceil_tiles n.
Proof. intros Hn. pose proof (ceil_tiles_spec n). unfold TILE_SIZE in *. lia. Qed.

Lemma elem_of_tile_keys (tile_w tile_h nb : Z) (k : Z * Z * Z) :
  k ∈ tile_keys tile_w tile_h nb
  ↔ 0 ≤ k.1.1 < tile_h ∧ 0 ≤ k.1.2 < tile_w ∧ 0 ≤ k.2 < nb.
Proof.
  unfold tile_keys. rewrite list_elem_of_bind. split.
  - intros (p & Hk & Hp). apply list_elem_of_fmap in Hk as (b & -> & Hb).
    apply (elem_of_cells tile_h tile_w) in Hp. apply elem_of_range in Hb. simpl. lia.
  - intros (Hy & Hx & Hb). exists k.1. split.
    + apply list_elem_of_fmap. exists k.2. rewrite elem_of_range.
      split; [by destruct k | done].
    + by apply (elem_of_cells tile_h tile_w).
Qed.

Lemma tile_index_inj (tile_w tile_h nb : Z) (k k' : Z * Z * Z) :
  tile_w ≤ TILE_SIZE →
  0 ≤ k.1.1 ∧ 0 ≤ k.1.2 < TILE_SIZE ∧ 0 ≤ k.2 < nb →
  0 ≤ k'.1.1 ∧ 0 ≤ k'.1.2 < TILE_SIZE ∧ 0 ≤ k'.2 < nb →
  tile_index nb k = tile_index nb k' → k = k'.
Proof.
  destruct k as [[py px] b], k' as [[py' px'] b']. unfold tile_index, TILE_SIZE. simpl.
  intros Hw (Hy & Hx & Hb) (Hy' & Hx' & Hb') Heq.
  assert ((py * 512 + px) * nb + b = (py' * 512 + px') * nb + b') as Heq' by nia.
  apply mixed_radix_inj in Heq' as [Heq' ->]; [|done|done].
  apply mixed_radix_inj in Heq' as [-> ->]; done.
Qed.

Lemma NoDup_tile_keys (tile_w tile_h nb : Z) : NoDup (tile_keys tile_w tile_h nb).
Proof.
  unfold tile_keys. apply NoDup_bind.
  - intros x1 x2 y _ _ H1 H2.
    apply list_elem_of_fmap in H1 as (? & -> & _).
    apply list_elem_of_fmap in H2 as (? & [= ->] & _). done.
  - intros x _. apply NoDup_fmap_2; [|apply NoDup_range]. by intros ?? [= ->].
  - apply (NoDup_cells tile_h tile_w).
Qed.

Lemma NoDup_tile_index (tile_w tile_h nb : Z) :
  tile_w ≤ TILE_SIZE → NoDup (tile_index nb <$> tile_keys tile_w tile_h nb).
Proof.
  intros Hw. apply NoDup_fmap_2_strong; [|apply NoDup_tile_keys].
  intros k k' Hk Hk'. apply elem_of_tile_keys in Hk, Hk'.
  apply (tile_index_inj tile_w tile_h); (done || lia).
Qed.

Lemma tile_sample_Ok (bands : gmap string (list Z)) (band_names : list string)
    (width height x0 y0 : Z) (tile_data : list Z) (k : Z * Z * Z) :
  wf_bands bands band_names width height →
  let nb := Z.of_nat (length band_names) in
  0 ≤ x0 → 0 ≤ y0 →
  0 ≤ k.1.1 < TILE_SIZE → y0 + k.1.1 < height →
  0 ≤ k.1.2 < TILE_SIZE → x0 + k.1.2 < width →
  0 ≤ k.2 < nb →
  Z.of_nat (length tile_data) = TILE_SIZE * TILE_SIZE * nb →
  tile_sample bands band_names ((y0 + k.1.1) * width + (x0 + k.1.2))
              ((k.1.1 * TILE_SIZE + k.1.2) * nb) tile_data k.2
  = Ok (match tile_value bands band_names width x0 y0 k with
        | Some v => <[tile_index nb k := v]> tile_data
        | None => tile_data
        end).
Proof.
  destruct k as [[py px] b]. simpl. intros Hwf Hx0 Hy0 Hpy Hy Hpx Hx Hb Hlen.
  unfold tile_sample, TILE_SIZE in *.
  destruct (band_names !! Z.to_nat b) as [name|] eqn:Hname.
  2:{ apply lookup_ge_None in Hname. lia. }
  destruct (Hwf name) as (band & Hband & Hblen); [by eapply list_elem_of_lookup_2|].
  destruct (band !! Z.to_nat ((y0 + py) * width + (x0 + px))) as [v|] eqn:Hv.
  2:{ apply lookup_ge_None in Hv. nia. }
  rewrite (getitem_Ok _ _ name) by (done || lia). simpl.
  unfold dict_get. rewrite Hband. simpl.
  rewrite (getitem_Ok _ _ v) by (done || nia). simpl.
  rewrite setitem_Ok by nia.
  unfold band_sample, tile_index. simpl. rewrite Hname. simpl. rewrite Hband. simpl.
  by rewrite Hv.
Qed.

(** Inside the tile grid, the extraction loops store [tile_value] at
    [tile_index] over a buffer of zeros. *)
Lemma extract_tile_scatter (bands : gmap string (list Z)) (band_names : list string)
    (width height tx ty : Z) :
  wf_bands bands band_names width height →
  let nb := Z.of_nat (length band_names) in
  let x0 := tx * TILE_SIZE in
  let y0 := ty * TILE_SIZE in
  0 ≤ tx → 0 ≤ ty → x0 < width → y0 < height →
  extract_tile bands band_names width height tx ty
  = Ok (scatter (tile_index nb) (tile_value bands band_names width x0 y0)
                (replicate (Z.to_nat (TILE_SIZE * TILE_SIZE * nb)) 0)
                (tile_keys (Z.min TILE_SIZE (width - x0)) (Z.min TILE_SIZE (height - y0)) nb)).
Proof.
  intros Hwf nb x0 y0 Htx Hty Hx Hy. unfold extract_tile, np_zeros.
  fold nb x0 y0.
  destruct (Z.ltb_spec (TILE_SIZE * TILE_SIZE * nb) 0); [unfold TILE_SIZE in *; lia|].
  simpl. unfold tile_pixel. fold nb.
  rewrite (foldM_nested (λ py td px,
             foldM (tile_sample bands band_names ((y0 + py) * width + (x0 + px))
                                ((py * TILE_SIZE + px) * nb)) td (range nb))).
  rewrite (foldM_nested (λ p : Z * Z,
             tile_sample bands band_names ((y0 + p.1) * width + (x0 + p.2))
                         ((p.1 * TILE_SIZE + p.2) * nb))).
  fold (tile_keys (Z.min TILE_SIZE (width - x0)) (Z.min TILE_SIZE (height - y0)) nb).
  set (size := Z.to_nat (TILE_SIZE * TILE_SIZE * nb)).
  edestruct (foldM_total (λ td : list Z, length td = size)
               (λ td (k : Z * Z * Z),
                  tile_sample bands band_names ((y0 + k.1.1) * width + (x0 + k.1.2))
                              ((k.1.1 * TILE_SIZE + k.1.2) * nb) td k.2)
               (λ td k, match tile_value bands band_names width x0 y0 k with
                        | Some v => <[tile_index nb k := v]> td
                        | None => td
                        end)
               (tile_keys (Z.min TILE_SIZE (width - x0)) (Z.min TILE_SIZE (height - y0)) nb)
               (replicate size 0)) as [Hrun _].
  - apply length_replicate.
  - intros td k Htd Hk. apply elem_of_tile_keys in Hk as (Hpy & Hpx & Hb).
    split.
    + apply (tile_sample_Ok bands band_names width height);
        unfold TILE_SIZE in *; subst x0 y0 size; (done || lia).
    + simpl. by rewrite length_insert.
  - exact Hrun.
Qed.

(** The contents of a tile of the grid: band [b] of tile pixel [(px, py)] sits
    at [(py * 512 + px) * bandCount + b]; it is the band's sample when the
    pixel is inside the raster and zero otherwise. *)
Lemma extract_tile_contents (bands : gmap string (list Z)) (band_names : list string)
    (width height tx ty : Z) :
  wf_bands bands band_names width height →
  let nb := Z.of_nat (length band_names) in
  0 ≤ tx → 0 ≤ ty → tx * TILE_SIZE < width → ty * TILE_SIZE < height →
  ∃ td, extract_tile bands band_names width height tx ty = Ok td
    ∧ Z.of_nat (length td) = TILE_SIZE * TILE_SIZE * nb
    ∧ ∀ px py b, 0 ≤ px < TILE_SIZE → 0 ≤ py < TILE_SIZE → 0 ≤ b < nb →
        td !! Z.to_nat ((py * TILE_SIZE + px) * nb + b)
        = Some (if (tx * TILE_SIZE + px <? width) && (ty * TILE_SIZE + py <? height)
                then band_sample bands band_names b
                       ((ty * TILE_SIZE + py) * width + (tx * TILE_SIZE + px))
                else 0).
Proof.
  intros Hwf nb Htx Hty Hx Hy. eexists.
  split; [by apply extract_tile_scatter|].
  split; [rewrite length_scatter, length_replicate; unfold TILE_SIZE; lia|].
  intros px py b Hpx Hpy Hb.
  change (Z.to_nat ((py * TILE_SIZE + px) * nb + b)) with (tile_index nb (py, px, b)).
  set (tile_w := Z.min TILE_SIZE (width - tx * TILE_SIZE)).
  set (tile_h := Z.min TILE_SIZE (height - ty * TILE_SIZE)).
  destruct (Z.ltb_spec (tx * TILE_SIZE + px) width) as [Hin_x|Hout_x];
    [destruct (Z.ltb_spec (ty * TILE_SIZE + py) height) as [Hin_y|Hout_y]|]; simpl.
  - rewrite scatter_lookup_in.
    + done.
    + apply NoDup_tile_index. subst tile_w. lia.
    + apply elem_of_tile_keys. simpl. subst tile_w tile_h. lia.
    + rewrite length_replicate. unfold tile_index, TILE_SIZE in *. simpl. nia.
  - rewrite scatter_lookup_notin.
    + apply lookup_replicate. split; [done|]. unfold tile_index, TILE_SIZE in *. simpl. nia.
    + intros Hin. apply list_elem_of_fmap in Hin as (k & Heq & Hk).
      apply elem_of_tile_keys in Hk. subst tile_w tile_h.
      apply (tile_index_inj TILE_SIZE TILE_SIZE) in Heq; [|done|simpl; lia|lia].
      subst k. simpl in Hk. lia.
  - rewrite scatter_lookup_notin.
    + apply lookup_replicate. split; [done|]. unfold tile_index, TILE_SIZE in *. simpl. nia.
    + intros Hin. apply list_elem_of_fmap in Hin as (k & Heq & Hk).
      apply elem_of_tile_keys in Hk. subst tile_w tile_h.
      apply (tile_index_inj TILE_SIZE TILE_SIZE) in Heq; [|done|simpl; lia|lia].
      subst k. simpl in Hk. lia.
Qed.

(** *** The tile loops *)

Lemma foldW_total {S X : Type} (body : S → X → M S) (step : S → X → S)
    (tick : world → world) (xs : list X) (s : S) (w : world) :
  (∀ s x w, x ∈ xs → body s x w = (Ok (step s x), tick w)) →
  foldW body s xs w = (Ok (foldl step s xs), Nat.iter (length xs) tick w).
Proof.
  revert s w. induction xs as [|x xs IH]; intros s w Hbody; [done|].
  cbn [foldW]. unfold mbind, M_bind. rewrite Hbody by left.
  rewrite IH by (intros; apply Hbody; by right).
  simpl. f_equal. clear. induction (length xs) as [|n IHn]; [done|].
  simpl. by rewrite IHn.
Qed.

Lemma foldl_snoc_bind {A B : Type} (g : A → list B) (acc : list B) (xs : list A) :
  foldl (λ acc x, acc ++ g x) acc xs = acc ++ (xs ≫= g).
Proof.
  revert acc. induction xs as [|x xs IH]; intros acc; csimpl; [by rewrite app_nil_r|].
  by rewrite IH, app_assoc.
Qed.

Lemma iter_zlib_calls (n : nat) (w : world) :
  Nat.iter n (λ w, World (files w) (S (zlib_calls w))) w
  = World (files w) (n + zlib_calls w).
Proof.
  induction n as [|n IH]; [by destruct w|]. simpl. by rewrite IH.
Qed.

(** On valid input the tile step deflates every tile of the grid, in grid
    order, and fails on none. *)
Lemma compress_tiles_run (zlib_compress : list byte → Z → list byte)
    (bands : gmap string (list Z)) (band_names : list string) (width height : Z)
    (w : world) :
  wf_bands bands band_names width height → 1 ≤ width → 1 ≤ height →
  compress_tiles zlib_compress bands band_names width height w
  = (Ok (tiles_of zlib_compress bands band_names width height),
     World (files w)
           (Z.to_nat (ceil_tiles width * ceil_tiles height) + zlib_calls w)).
Proof.
  intros Hwf Hw Hh. unfold compress_tiles.
  pose proof (ceil_tiles_spec width) as Hcw. pose proof (ceil_tiles_spec height) as Hch.
  set (tick := λ w, World (files w) (S (zlib_calls w))).
  rewrite (foldW_total _
             (λ acc ty, acc ++ ((λ tx, deflate_tile zlib_compress
                                         (tile_of bands band_names width height tx ty))
                                <$> range (ceil_tiles width)))
             (Nat.iter (length (range (ceil_tiles width))) tick)).
  - rewrite (foldl_snoc_bind (λ ty, _ <$> range (ceil_tiles width))). simpl.
    unfold tiles_of. f_equal.
    assert (∀ n m w, Nat.iter n (Nat.iter m tick) w = Nat.iter (n * m) tick w) as Hit.
    { clear. induction n as [|n IH]; intros m w; [done|].
      change (S n * m)%nat with (m + n * m)%nat. rewrite Nat.iter_add, <- IH. done. }
    rewrite Hit, iter_zlib_calls, !length_range. f_equal.
    unfold TILE_SIZE in *. nia.
  - intros acc ty w0 Hty%elem_of_range.
    rewrite (foldW_total _
               (λ acc tx, acc ++ [deflate_tile zlib_compress
                                    (tile_of bands band_names width height tx ty)])
               tick).
    + by rewrite (foldl_snoc_bind (λ tx, [_])), <- fmap_as_bind.
    + intros acc' tx w1 Htx%elem_of_range.
      unfold compress_tile, tile_of, mbind, M_bind, lift.
      rewrite extract_tile_scatter by (done || unfold TILE_SIZE in *; lia).
      reflexivity.
Qed.

(** C7. On valid input of [bandCount] bands the tile step produces exactly
    [ceil(width/512) * ceil(height/512)] tiles (one [zlib.compress] call
    each) in row-major order, tile [(tx, ty)] at position [ty * tilesX + tx].
    The uncompressed buffer of each tile holds [512 * 512 * bandCount]
    samples; band [b] of tile pixel [(px, py)] is at index
    [(py * 512 + px) * bandCount + b]; it is the band's sample at raster pixel
    [(tx * 512 + px, ty * 512 + py)] when that pixel is inside the raster, and
    zero at every position outside it. *)
Theorem tile_compressor_layout (zlib_compress : list byte → Z → list byte)
    (bands : gmap string (list Z)) (band_names : list string) (width height : Z)
    (w : world) :
  wf_bands bands band_names width height → 1 ≤ width → 1 ≤ height →
  let nb := Z.of_nat (length band_names) in
  let tiles_x := ceil_tiles width in
  let tiles_y := ceil_tiles height in
  (tiles_x - 1) * 512 < width ≤ tiles_x * 512
  ∧ (tiles_y - 1) * 512 < height ≤ tiles_y * 512
  ∧ ∃ tiles,
      compress_tiles zlib_compress bands band_names width height w
      = (Ok tiles, World (files w) (Z.to_nat (tiles_x * tiles_y) + zlib_calls w))
      ∧ Z.of_nat (length tiles) = tiles_x * tiles_y
      ∧ ∀ tx ty, 0 ≤ tx < tiles_x → 0 ≤ ty < tiles_y →
          ∃ td, extract_tile bands band_names width height tx ty = Ok td
            ∧ tiles !! Z.to_nat (ty * tiles_x + tx) = Some (deflate_tile zlib_compress td)
            ∧ Z.of_nat (length td) = 512 * 512 * nb
            ∧ ∀ px py b, 0 ≤ px < 512 → 0 ≤ py < 512 → 0 ≤ b < nb →
                td !! Z.to_nat ((py * 512 + px) * nb + b)
                = Some (if (tx * 512 + px <? width) && (ty * 512 + py <? height)
                        then band_sample bands band_names b
                               ((ty * 512 + py) * width + (tx * 512 + px))
                        else 0).
Proof.
  intros Hwf Hw Hh nb tiles_x tiles_y.
  pose proof (ceil_tiles_spec width) as Hcw. pose proof (ceil_tiles_spec height) as Hch.
  fold tiles_x in Hcw. fold tiles_y in Hch. unfold TILE_SIZE in Hcw, Hch.
  split; [done|]. split; [done|].
  exists (tiles_of zlib_compress bands band_names width height).
  split; [by apply compress_tiles_run|].
  assert (∀ ty, ty ∈ range tiles_y →
            length ((λ tx, deflate_tile zlib_compress
                             (tile_of bands band_names width height tx ty))
                    <$> range tiles_x) = Z.to_nat tiles_x) as Hrow.
  { intros ty _. by rewrite length_fmap, length_range. }
  split.
  { unfold tiles_of. fold tiles_x tiles_y.
    rewrite (length_bind_uniform _ _ (Z.to_nat tiles_x)), length_range by done. nia. }
  intros tx ty Htx Hty.
  destruct (extract_tile_contents bands band_names width height tx ty Hwf)
    as (td & Htd & Hlen & Hcontents); try (unfold TILE_SIZE; lia).
  exists td. split; [done|]. split; [|split; [exact Hlen | exact Hcontents]].
  unfold tiles_of. fold tiles_x tiles_y.
  replace (Z.to_nat (ty * tiles_x + tx))
    with (Z.to_nat ty * Z.to_nat tiles_x + Z.to_nat tx)%nat by nia.
  rewrite (lookup_bind_uniform _ _ (Z.to_nat tiles_x)) by (done || lia).
  rewrite lookup_range by lia. simpl.
  rewrite list_lookup_fmap, lookup_range by lia. simpl.
  rewrite !Z2Nat.id by lia. unfold tile_of. by rewrite Htd.
Qed.

(** The scenario of the specification: 700 x 600 in three bands.  The grid is
    2 x 2; for tile (1, 1) the loops run over [tile_w = 188] columns and
    [tile_h = 88] rows, the rest of its 512 x 512 buffer being padding. *)
Lemma tile_grid_700_600 :
  let band := replicate (Z.to_nat 420000) 0 in
  let bands : gmap string (list Z) :=
    <["HHHH" := band]> (<["HVHV" := band]> (<["VVVV" := band]> ∅)) in
  let band_names := ["HHHH"; "HVHV"; "VVVV"] in
  (ceil_tiles 700 = 2 ∧ ceil_tiles 600 = 2
   ∧ Z.min TILE_SIZE (700 - 1 * TILE_SIZE) = 188
   ∧ Z.min TILE_SIZE (600 - 1 * TILE_SIZE) = 88)
  ∧ ∃ tiles,
      compress_tiles stored bands band_names 700 600 (World ∅ 0)
      = (Ok tiles, World ∅ (Z.to_nat (ceil_tiles 700 * ceil_tiles 600) + 0))
      ∧ Z.of_nat (length tiles) = ceil_tiles 700 * ceil_tiles 600
      ∧ ∀ tx ty, 0 ≤ tx < ceil_tiles 700 → 0 ≤ ty < ceil_tiles 600 →
          ∃ td, extract_tile bands band_names 700 600 tx ty = Ok td
            ∧ tiles !! Z.to_nat (ty * ceil_tiles 700 + tx) = Some (deflate_tile stored td)
            ∧ Z.of_nat (length td) = 512 * 512 * 3
            ∧ ∀ px py b, 0 ≤ px < 512 → 0 ≤ py < 512 → 0 ≤ b < 3 →
                td !! Z.to_nat ((py * 512 + px) * 3 + b)
                = Some (if (tx * 512 + px <? 700) && (ty * 512 + py <? 600)
                        then band_sample bands band_names b
                               ((ty * 512 + py) * 700 + (tx * 512 + px))
                        else 0).
Proof.
  intros band bands band_names. split; [repeat split|].
  apply (tile_compressor_layout stored bands band_names 700 600 (World ∅ 0)); [|lia|lia].
  intros name Hname. exists band.
  split; [|subst band; rewrite length_replicate, Z2Nat.id by done; reflexivity].
  clearbody band. subst bands band_names.
  repeat (apply elem_of_cons in Hname as [->|Hname]).
  - apply lookup_insert_eq.
  - rewrite lookup_insert_ne by done. apply lookup_insert_eq.
  - rewrite !lookup_insert_ne by done. apply lookup_insert_eq.
  - by apply elem_of_nil in Hname.
Defined.

End Tiles.

(** ** Bytes *)

Section ByteFacts.
Import Bytes.

Lemma Z_of_byte_of_Z (z : Z) : Z_of_byte (byte_of_Z z) = z mod 256.
Proof.
  unfold Z_of_byte, byte_of_Z.
  pose proof (Z.mod_pos_bound z 256 ltac:(lia)) as Hb.
  destruct (Byte.of_N (Z.to_N (z mod 256))) as [b|] eqn:E.
  - simpl. apply Byte.to_of_N in E. rewrite E. lia.
  - apply Byte.of_N_None_iff in E. lia.
Qed.

Lemma length_le_bytes (n : nat) (v : Z) : length (le_bytes n v) = n.
Proof.
  revert v. induction n as [|n IH]; intros v; [done|].
  change (le_bytes (S n) v) with (byte_of_Z v :: le_bytes n (v / 256)).
  simpl. by rewrite IH.
Qed.

Lemma le_value_le_bytes (n : nat) (v : Z) :
  0 ≤ v < 256 ^ Z.of_nat n → le_value (le_bytes n v) = v.
Proof.
  revert v. induction n as [|n IH]; intros v Hv.
  - simpl in *. lia.
  - change (le_bytes (S n) v) with (byte_of_Z v :: le_bytes n (v / 256)).
    cbn [le_value foldr]. fold (le_value (le_bytes n (v / 256))).
    rewrite Z_of_byte_of_Z, IH.
    + pose proof (Z.div_mod v 256 ltac:(lia)). lia.
    + rewrite Nat2Z.inj_succ, Z.pow_succ_r in Hv by lia.
      split; [apply Z.div_pos; lia|]. apply Z.div_lt_upper_bound; lia.
Qed.

Lemma le_value_app (bs cs : list byte) :
  le_value (bs ++ cs) = le_value bs + 256 ^ Z.of_nat (length bs) * le_value cs.
Proof.
  induction bs as [|b bs IH]; [simpl; lia|].
  cbn [app le_value foldr length]. fold (le_value (bs ++ cs)). fold (le_value bs).
  rewrite IH, Nat2Z.inj_succ, Z.pow_succ_r by lia. ring.
Qed.

Lemma le_value_zeros (n : nat) : le_value (replicate n x00) = 0.
Proof. induction n as [|n IH]; [done|]. simpl. fold (le_value (replicate n x00)). by rewrite IH. Qed.

Lemma length_zeros (n : Z) : length (zeros n) = Z.to_nat n.
Proof. apply length_replicate. Qed.

Lemma zeros_add (n m : Z) : 0 ≤ n → 0 ≤ m → zeros (n + m) = zeros n ++ zeros m.
Proof. intros Hn Hm. unfold zeros. by rewrite Z2Nat.inj_add, replicate_add by lia. Qed.

(** A write at the start of a run of zeros eats as many zeros as it is long. *)
Lemma write_at_zeros (X Y bs : list byte) (n pos : Z) :
  pos = Z.of_nat (length X) → Z.of_nat (length bs) ≤ n →
  write_at (X ++ zeros n ++ Y) pos bs
  = Ok (X ++ bs ++ zeros (n - Z.of_nat (length bs)) ++ Y).
Proof.
  intros -> Hn. unfold write_at.
  destruct (Z.ltb_spec (Z.of_nat (length X)) 0); [lia|].
  rewrite !length_app, length_zeros.
  destruct (Z.ltb_spec (Z.of_nat (length X)) 0); [lia|].
  destruct (Z.ltb_spec (Z.of_nat (length X + (Z.to_nat n + length Y)))
                       (Z.of_nat (length X) + Z.of_nat (length bs))); [lia|].
  simpl. rewrite Nat2Z.id, take_app_length. do 2 f_equal.
  rewrite drop_app_ge, drop_app_le by (rewrite ?length_zeros; lia).
  do 2 f_equal. unfold zeros. rewrite drop_replicate. f_equal. lia.
Qed.

Lemma read_le_app (X Y bs : list byte) (pos : Z) (n : nat) :
  pos = Z.of_nat (length X) → n = length bs →
  read_le (X ++ bs ++ Y) pos n = le_value bs.
Proof.
  intros -> ->. unfold read_le.
  by rewrite Nat2Z.id, drop_app_length, take_app_length.
Qed.

Lemma struct_pack_HHI (a b c : Z) :
  0 ≤ a ≤ 65535 → 0 ≤ b ≤ 65535 → 0 ≤ c ≤ 4294967295 →
  struct_pack [fmt_H a; fmt_H b; fmt_I c] = Ok (le_bytes 2 a ++ le_bytes 2 b ++ le_bytes 4 c).
Proof.
  intros Ha Hb Hc. cbn [struct_pack pack_field].
  destruct (Z.leb_spec 0 a), (Z.leb_spec a 65535); try lia.
  destruct (Z.leb_spec 0 b), (Z.leb_spec b 65535); try lia.
  destruct (Z.leb_spec 0 c), (Z.leb_spec c 4294967295); try lia.
  reflexivity.
Qed.

Lemma struct_pack_H (a : Z) : 0 ≤ a ≤ 65535 → struct_pack [fmt_H a] = Ok (le_bytes 2 a).
Proof.
  intros Ha. cbn [struct_pack pack_field].
  destruct (Z.leb_spec 0 a), (Z.leb_spec a 65535); try lia. done.
Qed.

Lemma struct_pack_I (a : Z) : 0 ≤ a ≤ 4294967295 → struct_pack [fmt_I a] = Ok (le_bytes 4 a).
Proof.
  intros Ha. cbn [struct_pack pack_field].
  destruct (Z.leb_spec 0 a), (Z.leb_spec a 4294967295); try lia. done.
Qed.

Lemma struct_pack_HH (a b : Z) :
  0 ≤ a ≤ 65535 → 0 ≤ b ≤ 65535 →
  struct_pack [fmt_H a; fmt_H b] = Ok (le_bytes 2 a ++ le_bytes 2 b).
Proof.
  intros Ha Hb. cbn [struct_pack pack_field].
  destruct (Z.leb_spec 0 a), (Z.leb_spec a 65535); try lia.
  destruct (Z.leb_spec 0 b), (Z.leb_spec b 65535); try lia. done.
Qed.

Lemma struct_pack_d (f : float) : struct_pack [fmt_d f] = Ok (le_bytes 8 (float_bits f)).
Proof. reflexivity. Qed.

End ByteFacts.

(** ** BinarySerializer: the bytes of the file *)

Section ImageFacts.
Import Bytes Writer.

Lemma byte_size_even (e : entry) : byte_size e mod 2 = 0.
Proof.
  unfold byte_size. destruct (typ e); simpl.
  - by rewrite Z.mul_comm, Z.mod_mul.
  - replace (4 * count e) with (2 * count e * 2) by lia. by rewrite Z.mod_mul.
  - replace (8 * count e) with (4 * count e * 2) by lia. by rewrite Z.mod_mul.
Qed.

Lemma even_up_even (n : Z) : n mod 2 = 0 → even_up n = n.
Proof. intros Hn. unfold even_up. by rewrite Hn. Qed.

Lemma reserved_snoc_exact (entries : list entry) (e : entry) :
  reserved (entries ++ [e])
  = reserved entries + (if 4 <? byte_size e then byte_size e else 0).
Proof.
  rewrite reserved_snoc. destruct (4 <? byte_size e); [|lia].
  apply even_up_even.
  rewrite Z.add_mod, reserved_even, byte_size_even by lia. done.
Qed.

Lemma span_start_S (entries : list entry) (k : nat) (e : entry) :
  entries !! k = Some e →
  span_start entries (S k)
  = span_start entries k + (if 4 <? byte_size e then byte_size e else 0).
Proof.
  intros Hk. unfold span_start. rewrite (take_S_r _ _ _ Hk), reserved_snoc_exact. lia.
Qed.

Lemma span_start_mono (entries : list entry) (k : nat) :
  span_start entries k ≤ span_start entries (length entries).
Proof.
  destruct (decide (k ≤ length entries)%nat) as [Hle|Hgt].
  - remember (length entries - k)%nat as d eqn:Hd.
    revert k Hle Hd. induction d as [|d IH]; intros k Hle Hd.
    + replace k with (length entries) by lia. done.
    + destruct (entries !! k) as [e|] eqn:He.
      2:{ apply lookup_ge_None in He. lia. }
      etrans; [|apply (IH (S k)); lia].
      rewrite (span_start_S _ _ _ He). destruct (Z.ltb_spec 4 (byte_size e)); lia.
  - unfold span_start. rewrite (take_ge entries k), firstn_all by lia. done.
Qed.

Lemma length_inline_field (e : entry) : length (inline_field e) = 4%nat.
Proof.
  unfold inline_field.
  destruct (typ e), (values e) as [|[z|f] [|[z'|f'] [|? ?]]]; done.
Qed.

Lemma length_record_image (e : entry) (ptr : Z) : length (record_image e ptr) = 12%nat.
Proof.
  unfold record_image, value_field. rewrite !length_app, !length_le_bytes.
  destruct (byte_size e <=? 4); by rewrite ?length_inline_field, ?length_le_bytes.
Qed.

Lemma records_image_S (entries : list entry) (k : nat) (e : entry) :
  entries !! k = Some e →
  records_image entries (S k)
  = records_image entries k ++ record_image e (span_start entries k).
Proof.
  intros Hk. unfold records_image.
  rewrite (take_S_r _ _ _ Hk), imap_app, join_app. simpl.
  rewrite app_nil_r, length_take_le, Nat.add_0_r; [done|].
  apply lookup_lt_Some in Hk. lia.
Qed.

Lemma length_records_image (entries : list entry) (k : nat) :
  (k ≤ length entries)%nat → length (records_image entries k) = (12 * k)%nat.
Proof.
  induction k as [|k IH]; intros Hk; [done|].
  destruct (entries !! k) as [e|] eqn:He.
  2:{ apply lookup_ge_None in He. lia. }
  rewrite (records_image_S _ _ _ He), length_app, length_record_image, IH; lia.
Qed.

Lemma blocks_image_S (entries : list entry) (tiles : list tile) (k : nat) (e : entry) :
  entries !! k = Some e →
  blocks_image entries tiles (S k)
  = blocks_image entries tiles k
    ++ block_image tiles (span_start entries (length entries)) e.
Proof.
  intros Hk. unfold blocks_image.
  rewrite (take_S_r _ _ _ Hk), bind_app. csimpl. by rewrite app_nil_r.
Qed.

Lemma length_value_image (t : tiff_type) (v : pyval) :
  value_ok t v → Z.of_nat (length (value_image t v)) = type_sizes t.
Proof. destruct t, v; simpl; try done; by rewrite length_le_bytes. Qed.

Lemma length_values_image (t : tiff_type) (vs : list pyval) :
  Forall (value_ok t) vs →
  Z.of_nat (length (vs ≫= value_image t)) = type_sizes t * Z.of_nat (length vs).
Proof.
  induction 1 as [|v vs Hv _ IH]; csimpl; [lia|].
  rewrite length_app, Nat2Z.inj_add, IH, (length_value_image _ _ Hv). lia.
Qed.

Lemma length_tile_offsets (tile_pos : Z) (tiles : list tile) :
  length (tile_offsets tile_pos tiles) = length tiles.
Proof.
  revert tile_pos. induction tiles as [|t tiles IH]; intros tile_pos; simpl; [done|].
  by rewrite IH.
Qed.

Lemma length_block_image (tiles : list tile) (tdo : Z) (e : entry) :
  wf_entry tiles e →
  Z.of_nat (length (block_image tiles tdo e))
  = if 4 <? byte_size e then byte_size e else 0.
Proof.
  intros (Htag & Hcount & Hmax & Hvals & Htiles). unfold block_image.
  destruct (Z.leb_spec (byte_size e) 4), (Z.ltb_spec 4 (byte_size e)); try lia; [done|].
  destruct (Z.eqb_spec (tag e) TAG_TILE_OFFSETS) as [Heq|Hne].
  - rewrite (length_bind_uniform _ _ 4) by (intros; apply length_le_bytes).
    rewrite length_tile_offsets. specialize (Htiles Heq ltac:(lia)). lia.
  - rewrite length_values_image by done. unfold byte_size. lia.
Qed.

End ImageFacts.

Section Regions.
Import Bytes Writer.

Lemma write_records (hdr recs blocks bs : list byte) (gap rest pos : Z) :
  pos = Z.of_nat (length hdr) + Z.of_nat (length recs) →
  Z.of_nat (length bs) ≤ gap →
  write_at (regions hdr recs gap blocks rest) pos bs
  = Ok (regions hdr (recs ++ bs) (gap - Z.of_nat (length bs)) blocks rest).
Proof.
  intros Hpos Hlen. unfold regions.
  rewrite (app_assoc hdr recs), write_at_zeros by (rewrite ?length_app; lia).
  by rewrite <- !app_assoc.
Qed.

Lemma write_blocks (hdr recs blocks bs : list byte) (gap rest pos : Z) :
  0 ≤ gap →
  pos = Z.of_nat (length hdr) + Z.of_nat (length recs) + gap + Z.of_nat (length blocks) →
  Z.of_nat (length bs) ≤ rest →
  write_at (regions hdr recs gap blocks rest) pos bs
  = Ok (regions hdr recs gap (blocks ++ bs) (rest - Z.of_nat (length bs))).
Proof.
  intros Hgap Hpos Hlen. unfold regions.
  pose proof (write_at_zeros (hdr ++ recs ++ zeros gap ++ blocks) [] bs rest pos) as Hw.
  rewrite !app_nil_r, <- !app_assoc in Hw. rewrite Hw.
  - by rewrite <- !app_assoc.
  - rewrite !length_app, length_zeros. lia.
  - done.
Qed.

Lemma regions_absorb (hdr recs blocks : list byte) (gap rest j : Z) :
  0 ≤ j ≤ gap →
  regions hdr recs gap blocks rest = regions hdr (recs ++ zeros j) (gap - j) blocks rest.
Proof.
  intros Hj. unfold regions.
  replace gap with (j + (gap - j)) at 1 by lia.
  rewrite zeros_add by lia. by rewrite <- !app_assoc.
Qed.

Lemma length_regions (hdr recs blocks : list byte) (gap rest : Z) :
  0 ≤ gap → 0 ≤ rest →
  Z.of_nat (length (regions hdr recs gap blocks rest))
  = Z.of_nat (length hdr) + Z.of_nat (length recs) + gap
    + Z.of_nat (length blocks) + rest.
Proof. intros Hg Hr. unfold regions. rewrite !length_app, !length_zeros. lia. Qed.

End Regions.

Section Serializer.
Import Bytes Writer.
#[local] Opaque le_bytes.

Lemma inline_value_image (tiles : list tile) (e : entry)
    (hdr recs blocks : list byte) (gap rest pos : Z) :
  wf_entry tiles e → byte_size e ≤ 4 →
  pos = Z.of_nat (length hdr) + Z.of_nat (length recs) → 4 ≤ gap →
  inline_value (regions hdr recs gap blocks rest) pos e
  = Ok (regions hdr (recs ++ inline_field e) (gap - 4) blocks rest).
Proof.
  intros (Htag & Hcount & Hmax & Hvals & _) Hsize Hpos Hgap.
  destruct e as [tg ty cnt vs]. unfold byte_size, inline_value, inline_field in *.
  simpl in *. subst cnt.
  assert (∀ z, 0 ≤ z ≤ 65535 →
            pack_into (regions hdr recs gap blocks rest) pos [fmt_H z]
            = Ok (regions hdr (recs ++ le_bytes 2 z ++ [x00; x00]) (gap - 4) blocks rest)) as HH.
  { intros z Hz. unfold pack_into. rewrite struct_pack_H by done. cbn [mbind res_bind].
    rewrite write_records by (rewrite ?length_le_bytes; lia).
    rewrite length_le_bytes, (regions_absorb _ (recs ++ le_bytes 2 z) _ _ _ 2) by lia.
    replace (gap - Z.of_nat 2 - 2) with (gap - 4) by lia.
    by rewrite <- app_assoc. }
  assert (∀ bs, length bs = 4%nat →
            write_at (regions hdr recs gap blocks rest) pos bs
            = Ok (regions hdr (recs ++ bs) (gap - 4) blocks rest)) as H4.
  { intros bs Hbs. rewrite write_records by lia. by rewrite Hbs. }
  destruct ty, vs as [|v [|v' [|v'' vs]]]; simpl in *; try lia;
    repeat match goal with
           | H : Forall _ (_ :: _) |- _ => apply Forall_cons in H as [? H]
           | v : pyval |- _ => destruct v; simpl in *; try done
           end;
    try (rewrite <- (regions_absorb _ _ _ gap _ 4) by lia; done);
    try (by apply HH).
  - unfold pack_into. rewrite struct_pack_HH by done. cbn [mbind res_bind].
    apply H4. by rewrite length_app, !length_le_bytes.
  - unfold pack_into. rewrite struct_pack_I by done. cbn [mbind res_bind].
    apply H4. by rewrite length_le_bytes.
Qed.

Lemma overflow_values_image (t : tiff_type) (vs : list pyval)
    (hdr recs blocks : list byte) (gap rest opos : Z) :
  Forall (value_ok t) vs → 0 ≤ gap →
  opos = Z.of_nat (length hdr) + Z.of_nat (length recs) + gap + Z.of_nat (length blocks) →
  type_sizes t * Z.of_nat (length vs) ≤ rest →
  foldM (overflow_value t) (regions hdr recs gap blocks rest, opos) vs
  = Ok (regions hdr recs gap (blocks ++ (vs ≫= value_image t))
                (rest - type_sizes t * Z.of_nat (length vs)),
        opos + type_sizes t * Z.of_nat (length vs)).
Proof.
  intros Hvs Hgap. revert blocks rest opos.
  induction Hvs as [|v vs Hv _ IH]; intros blocks rest opos Hpos Hrest.
  - simpl. rewrite app_nil_r. do 3 f_equal; lia.
  - cbn [foldM].
    assert (overflow_value t (regions hdr recs gap blocks rest, opos) v
            = Ok (regions hdr recs gap (blocks ++ value_image t v) (rest - type_sizes t),
                  opos + type_sizes t)) as ->.
    { pose proof (length_value_image t v Hv) as Hlen. simpl in Hrest.
      destruct t, v as [z|f]; simpl in Hv |- *; try done.
      - unfold pack_into. rewrite struct_pack_H by done. cbn [mbind res_bind].
        rewrite write_blocks by (rewrite ?length_le_bytes; simpl in *; lia).
        by rewrite length_le_bytes.
      - unfold pack_into. rewrite struct_pack_I by done. cbn [mbind res_bind].
        rewrite write_blocks by (rewrite ?length_le_bytes; simpl in *; lia).
        by rewrite length_le_bytes.
      - destruct Hv as [f Hf]. simpl in Hf. rewrite Hf. simpl.
        unfold pack_into. rewrite struct_pack_d. cbn [mbind res_bind].
        rewrite write_blocks by (rewrite ?length_le_bytes; simpl in *; lia).
        by rewrite length_le_bytes.
      - unfold pack_into. rewrite struct_pack_d. cbn [mbind res_bind].
        rewrite write_blocks by (rewrite ?length_le_bytes; simpl in *; lia).
        by rewrite length_le_bytes. }
    rewrite IH.
    + csimpl. rewrite <- app_assoc.
      replace (rest - type_sizes t - type_sizes t * Z.of_nat (length vs))
        with (rest - type_sizes t * Z.of_nat (S (length vs))) by lia.
      replace (opos + type_sizes t + type_sizes t * Z.of_nat (length vs))
        with (opos + type_sizes t * Z.of_nat (S (length vs))) by lia.
      done.
    + rewrite length_app, Nat2Z.inj_add, (length_value_image t v Hv). lia.
    + simpl in Hrest. lia.
Qed.

Lemma sum_byteCount_cons (t : tile) (tiles : list tile) :
  sum_byteCount (t :: tiles) = byteCount t + sum_byteCount tiles.
Proof. by rewrite !sum_byteCount_foldr. Qed.

Lemma sum_byteCount_nonneg (tiles : list tile) :
  Forall wf_tile tiles → 0 ≤ sum_byteCount tiles.
Proof.
  induction 1 as [|t tiles Ht _ IH]; [done|].
  rewrite sum_byteCount_cons. unfold wf_tile in Ht. lia.
Qed.

Lemma fill_tile_offsets_image (pre suf : list tile)
    (hdr recs blocks : list byte) (gap rest cur tile_pos : Z) :
  Forall wf_tile suf → 0 ≤ gap →
  cur = Z.of_nat (length hdr) + Z.of_nat (length recs) + gap + Z.of_nat (length blocks) →
  0 ≤ tile_pos → tile_pos + sum_byteCount suf ≤ 4294967295 →
  4 * Z.of_nat (length suf) ≤ rest →
  foldM (fill_tile_offsets (pre ++ suf)) (regions hdr recs gap blocks rest, cur, tile_pos)
        (seqZ (Z.of_nat (length pre)) (Z.of_nat (length suf)))
  = Ok (regions hdr recs gap (blocks ++ (tile_offsets tile_pos suf ≫= le_bytes 4))
                (rest - 4 * Z.of_nat (length suf)),
        cur + 4 * Z.of_nat (length suf), tile_pos + sum_byteCount suf).
Proof.
  intros Hsuf Hgap. revert pre blocks rest cur tile_pos.
  induction Hsuf as [|t suf Ht Hsuf IH]; intros pre blocks rest cur tile_pos Hcur Hpos Hmax Hrest.
  - simpl. rewrite app_nil_r. unfold sum_byteCount. simpl.
    by rewrite Z.sub_0_r, !Z.add_0_r.
  - pose proof (sum_byteCount_nonneg suf Hsuf) as Hnn.
    rewrite sum_byteCount_cons in Hmax. unfold wf_tile in Ht.
    rewrite seqZ_cons by (simpl; lia). cbn [foldM].
    assert (fill_tile_offsets (pre ++ t :: suf)
              (regions hdr recs gap blocks rest, cur, tile_pos) (Z.of_nat (length pre))
            = Ok (regions hdr recs gap (blocks ++ le_bytes 4 tile_pos) (rest - 4),
                  cur + 4, tile_pos + byteCount t)) as ->.
    { unfold fill_tile_offsets, pack_into.
      rewrite struct_pack_I by lia. cbn [mbind res_bind].
      rewrite write_blocks by (rewrite ?length_le_bytes; simpl in *; lia).
      cbn [mbind res_bind]. rewrite length_le_bytes.
      rewrite (getitem_Ok _ _ t); [done | lia |].
      rewrite Nat2Z.id. by apply list_lookup_middle. }
    replace (Z.succ (Z.of_nat (length pre))) with (Z.of_nat (length (pre ++ [t])))
      by (rewrite length_app; simpl; lia).
    replace (Z.pred (Z.of_nat (length (t :: suf)))) with (Z.of_nat (length suf))
      by (simpl; lia).
    rewrite (cons_middle t pre suf), app_assoc.
    rewrite IH.
    + csimpl. rewrite <- app_assoc, sum_byteCount_cons.
      replace (rest - 4 - 4 * Z.of_nat (length suf))
        with (rest - 4 * Z.of_nat (S (length suf))) by lia.
      replace (cur + 4 + 4 * Z.of_nat (length suf))
        with (cur + 4 * Z.of_nat (S (length suf))) by lia.
      by replace (tile_pos + byteCount t + sum_byteCount suf)
        with (tile_pos + (byteCount t + sum_byteCount suf)) by lia.
    + rewrite length_app, length_le_bytes. lia.
    + lia.
    + lia.
    + simpl in Hrest. lia.
Qed.

Lemma span_start_even (entries : list entry) (k : nat) : span_start entries k mod 2 = 0.
Proof.
  unfold span_start.
  replace (8 + (2 + Z.of_nat (length entries) * 12 + 4) + reserved (take k entries))
    with (reserved (take k entries) + (7 + Z.of_nat (length entries) * 6) * 2) by lia.
  rewrite Z.mod_add by lia. apply reserved_even.
Qed.

Lemma length_header_image (entries : list entry) : length (header_image entries) = 10%nat.
Proof. unfold header_image. by rewrite !length_app, !length_le_bytes. Qed.

Lemma span_start_0 (entries : list entry) :
  span_start entries 0 = 14 + 12 * Z.of_nat (length entries).
Proof. unfold span_start. rewrite take_0. change (reserved []) with 0. lia. Qed.

Lemma pack_into_records (hdr recs blocks : list byte) (gap rest pos : Z)
    (fs : list field) (bs : list byte) :
  struct_pack fs = Ok bs →
  pos = Z.of_nat (length hdr) + Z.of_nat (length recs) →
  Z.of_nat (length bs) ≤ gap →
  pack_into (regions hdr recs gap blocks rest) pos fs
  = Ok (regions hdr (recs ++ bs) (gap - Z.of_nat (length bs)) blocks rest).
Proof.
  intros Hfs Hpos Hlen. unfold pack_into. rewrite Hfs. cbn [mbind res_bind].
  by apply write_records.
Qed.

Lemma length_blocks_image (entries : list entry) (tiles : list tile) (k : nat) :
  Forall (wf_entry tiles) entries → (k ≤ length entries)%nat →
  Z.of_nat (length (blocks_image entries tiles k)) = reserved (take k entries).
Proof.
  intros Hentries. induction k as [|k IH]; intros Hle.
  - unfold blocks_image. by rewrite take_0.
  - destruct (entries !! k) as [e|] eqn:He.
    2:{ apply lookup_ge_None in He. lia. }
    rewrite (blocks_image_S _ _ _ _ He), length_app, Nat2Z.inj_add.
    rewrite (take_S_r _ _ _ He), reserved_snoc_exact.
    rewrite (length_block_image tiles _ e)
      by (exact (proj1 (Forall_lookup _ _) Hentries k e He)).
    specialize (IH ltac:(lia)). lia.
Qed.

(** One turn of the directory loop takes the buffer with [k] entries written
    to the buffer with [k + 1] entries written. *)
Lemma write_entry_image (entries : list entry) (tiles : list tile) (k : nat) (e : entry) :
  Forall (wf_entry tiles) entries → Forall wf_tile tiles →
  span_start entries (length entries) + sum_byteCount tiles ≤ 4294967295 →
  entries !! k = Some e →
  write_entry tiles (span_start entries (length entries))
              (partial_image entries tiles k, 10 + 12 * Z.of_nat k, span_start entries k) e
  = Ok (partial_image entries tiles (S k), 10 + 12 * Z.of_nat (S k),
        span_start entries (S k)).
Proof.
  intros Hentries Htiles Htotal Hk.
  pose proof (proj1 (Forall_lookup _ _) Hentries k e Hk) as Hwf.
  pose proof Hwf as (Htag & Hcount & Hmax & Hvals & Htileoff).
  pose proof (lookup_lt_Some _ _ _ Hk) as Hlt.
  pose proof (sum_byteCount_nonneg tiles Htiles) as Hsum.
  pose proof (span_start_mono entries k) as Hmono.
  pose proof (span_start_mono entries (S k)) as Hmono'.
  pose proof (span_start_S entries k e Hk) as HS.
  pose proof (span_start_0 entries) as H0.
  pose proof (span_start_even entries k) as Heven.
  pose proof (byte_size_even e) as Hbeven.
  assert (span_start entries 0 ≤ span_start entries k) as Hge.
  { unfold span_start. rewrite take_0. change (reserved []) with 0.
    pose proof (reserved_nonneg (take k entries)). lia. }
  unfold write_entry, partial_image.
  rewrite (records_image_S _ _ _ Hk), (blocks_image_S _ _ _ _ Hk).
  set (hdr := header_image entries). set (recs := records_image entries k).
  set (blocks := blocks_image entries tiles k).
  set (tdo := span_start entries (length entries)) in *.
  assert (Z.of_nat (length hdr) = 10) as Hhdr by (subst hdr; by rewrite length_header_image).
  assert (Z.of_nat (length recs) = 12 * Z.of_nat k) as Hrecs
    by (subst recs; rewrite length_records_image; lia).
  assert (Z.of_nat (length blocks) = span_start entries k - span_start entries 0) as Hblocks.
  { subst blocks. rewrite length_blocks_image by (done || lia).
    unfold span_start. rewrite take_0. change (reserved []) with 0. lia. }
  rewrite (pack_into_records hdr recs blocks _ _ _ _ _
             (struct_pack_HHI (tag e) (type_code (typ e)) (count e) Htag
                (ltac:(destruct (typ e); simpl; lia)) (ltac:(lia))))
    by (rewrite ?length_app, ?length_le_bytes; lia).
  cbn [mbind res_bind].
  rewrite !length_app, !length_le_bytes.
  set (gap := span_start entries 0 - (10 + 12 * Z.of_nat k)
              - Z.of_nat (2 + (2 + 4))).
  assert (gap = 12 * Z.of_nat (length entries - k) - 4) as Hgap by (subst gap; lia).
  set (rest := tdo + sum_byteCount tiles - span_start entries k).
  replace (span_start entries 0 - (10 + 12 * Z.of_nat (S k))) with (gap - 4) by lia.
  unfold record_image, value_field, block_image.
  destruct (Z.leb_spec (byte_size e) 4) as [Hsmall|Hbig].
  - rewrite (inline_value_image tiles) by (rewrite ?length_app, ?length_le_bytes; (done || lia)).
    cbn [mbind res_bind]. rewrite app_nil_r, <- !app_assoc.
    destruct (Z.ltb_spec 4 (byte_size e)); [lia|].
    rewrite HS, Z.add_0_r. do 3 f_equal. lia.
  - destruct (Z.ltb_spec 4 (byte_size e)); [|lia].
    destruct (Z.eqb_spec (tag e) TAG_TILE_OFFSETS) as [Htg|Htg].
    + specialize (Htileoff Htg ltac:(lia)).
      rewrite (pack_into_records hdr _ blocks _ _ _ _ _
                 (struct_pack_I (span_start entries k) ltac:(lia)))
        by (rewrite ?length_app, ?length_le_bytes; lia).
      cbn [mbind res_bind]. rewrite length_le_bytes.
      replace (gap - Z.of_nat 4) with (gap - 4) by lia.
      pose proof (fill_tile_offsets_image [] tiles hdr
                    (((recs ++ le_bytes 2 (tag e) ++ le_bytes 2 (type_code (typ e))
                       ++ le_bytes 4 (count e)) ++ le_bytes 4 (span_start entries k)))
                    blocks (gap - 4) rest (span_start entries k) tdo) as Hloop.
      simpl in Hloop. change (Z.of_nat 0) with 0 in Hloop.
      unfold range. rewrite Hloop; clear Hloop.
      * cbn [mbind res_bind]. rewrite <- !app_assoc.
        rewrite even_up_even by (rewrite <- Htileoff, Z.add_mod, Heven, Hbeven by lia; done).
        rewrite HS, <- Htileoff.
        replace (rest - byte_size e)
          with (tdo + sum_byteCount tiles - (span_start entries k + byte_size e))
          by (subst rest; lia).
        by replace (10 + 12 * Z.of_nat k + 8 + 4) with (10 + 12 * Z.of_nat (S k)) by lia.
      * done.
      * lia.
      * rewrite !length_app, !length_le_bytes. lia.
      * subst tdo. lia.
      * lia.
      * subst rest. lia.
    + rewrite (pack_into_records hdr _ blocks _ _ _ _ _
                 (struct_pack_I (span_start entries k) ltac:(lia)))
        by (rewrite ?length_app, ?length_le_bytes; lia).
      cbn [mbind res_bind]. rewrite length_le_bytes.
      replace (gap - Z.of_nat 4) with (gap - 4) by lia.
      rewrite overflow_values_image.
      * cbn [mbind res_bind]. rewrite <- !app_assoc.
        unfold byte_size in *. rewrite Hcount in *.
        rewrite even_up_even by (rewrite Z.add_mod, Heven, Hbeven by lia; done).
        rewrite HS.
        replace (rest - type_sizes (typ e) * Z.of_nat (length (values e)))
          with (tdo + sum_byteCount tiles
                - (span_start entries k + type_sizes (typ e) * Z.of_nat (length (values e))))
          by (subst rest; lia).
        by replace (10 + 12 * Z.of_nat k + 8 + 4) with (10 + 12 * Z.of_nat (S k)) by lia.
      * done.
      * lia.
      * rewrite !length_app, !length_le_bytes. lia.
      * unfold byte_size in *. rewrite Hcount in *. subst rest. lia.
Qed.

Lemma write_entries_image (entries : list entry) (tiles : list tile) :
  Forall (wf_entry tiles) entries → Forall wf_tile tiles →
  span_start entries (length entries) + sum_byteCount tiles ≤ 4294967295 →
  foldM (write_entry tiles (span_start entries (length entries)))
        (partial_image entries tiles 0, 10, span_start entries 0) entries
  = Ok (partial_image entries tiles (length entries),
        10 + 12 * Z.of_nat (length entries),
        span_start entries (length entries)).
Proof.
  intros Hentries Htiles Htotal.
  assert (∀ rest pre, entries = pre ++ rest →
            foldM (write_entry tiles (span_start entries (length entries)))
                  (partial_image entries tiles (length pre),
                   10 + 12 * Z.of_nat (length pre), span_start entries (length pre)) rest
            = Ok (partial_image entries tiles (length entries),
                  10 + 12 * Z.of_nat (length entries),
                  span_start entries (length entries))) as Hloop.
  { induction rest as [|e rest IH]; intros pre Hpre.
    - rewrite app_nil_r in Hpre. by subst pre.
    - cbn [foldM]. rewrite write_entry_image; try done.
      + specialize (IH (pre ++ [e])). rewrite length_app in IH. simpl in IH.
        replace (length pre + 1)%nat with (S (length pre)) in IH by lia.
        apply IH. by rewrite <- app_assoc.
      + rewrite Hpre. by apply list_lookup_middle. }
  apply (Hloop entries []). done.
Qed.

Lemma slice_assign_zeros (X d : list byte) (rest : Z) :
  Z.of_nat (length d) ≤ rest →
  slice_assign (X ++ zeros rest) (Z.of_nat (length X))
               (Z.of_nat (length X) + Z.of_nat (length d)) d
  = (X ++ d) ++ zeros (rest - Z.of_nat (length d)).
Proof.
  intros Hd. unfold slice_assign, norm_bound.
  rewrite length_app, length_zeros.
  destruct (Z.ltb_spec (Z.of_nat (length X)) 0); [lia|].
  destruct (Z.ltb_spec (Z.of_nat (length X) + Z.of_nat (length d)) 0); [lia|].
  rewrite !Z.min_l, Z.max_r by lia.
  rewrite Nat2Z.id, take_app_length.
  rewrite drop_app_ge by lia. unfold zeros. rewrite drop_replicate, <- app_assoc.
  do 3 f_equal. lia.
Qed.

Lemma write_tiles_image (X : list byte) (tiles : list tile) (rest : Z) :
  Forall wf_tile tiles → sum_byteCount tiles ≤ rest →
  (foldl write_tile (X ++ zeros rest, Z.of_nat (length X)) tiles).1
  = X ++ (tiles ≫= data) ++ zeros (rest - sum_byteCount tiles).
Proof.
  intros Htiles. revert X rest.
  induction Htiles as [|t tiles Ht Htiles IH]; intros X rest Hrest.
  - simpl. unfold sum_byteCount. simpl. by rewrite Z.sub_0_r.
  - pose proof (sum_byteCount_nonneg tiles Htiles).
    rewrite sum_byteCount_cons in *. unfold wf_tile in Ht.
    cbn [foldl]. unfold write_tile at 2. rewrite Ht.
    rewrite slice_assign_zeros by lia.
    replace (Z.of_nat (length X) + Z.of_nat (length (data t)))
      with (Z.of_nat (length (X ++ data t))) by (rewrite length_app; lia).
    rewrite IH by lia. csimpl. by rewrite <- !app_assoc, Z.sub_add_distr.
Qed.

(** The serializer writes exactly the expected file: on well-formed entries
    and tiles, with at most 65535 entries and at most 4 GiB - 1 in all, it
    returns [file_image]. *)
Lemma serialize_image (entries : list entry) (tiles : list tile) :
  Forall (wf_entry tiles) entries → Forall wf_tile tiles →
  Z.of_nat (length entries) ≤ 65535 →
  total_size (plan_layout entries tiles) ≤ 4294967295 →
  serialize entries tiles (plan_layout entries tiles) = Ok (file_image entries tiles).
Proof.
  intros Hentries Htiles Hn Htotal.
  rewrite plan_layout_fields in *. simpl in Htotal.
  fold (span_start entries (length entries)) in Htotal.
  unfold serialize. cbn [total_size ifd_offset tile_data_offset overflow_offset].
  pose proof (sum_byteCount_nonneg tiles Htiles) as Hsum.
  pose proof (reserved_nonneg entries) as Hres.
  pose proof (span_start_0 entries) as H0.
  pose proof (span_start_mono entries 0) as Hmono.
  set (n := Z.of_nat (length entries)) in *.
  set (total := 8 + (2 + n * 12 + 4) + reserved entries + sum_byteCount tiles).
  assert (span_start entries (length entries) = 8 + (2 + n * 12 + 4) + reserved entries) as Htdo.
  { unfold span_start. by rewrite firstn_all. }
  unfold bytearray, np_zeros. destruct (Z.ltb_spec total 0); [lia|].
  cbn [mbind res_bind]. fold (zeros total).
  assert (pack_into (zeros total) 0 [fmt_s 2 [x49; x49]; fmt_H 42; fmt_I 8]
          = Ok (([x49; x49] ++ le_bytes 2 42 ++ le_bytes 4 8) ++ zeros (total - 8))) as ->.
  { unfold pack_into.
    change (struct_pack _) with (Ok ([x49; x49] ++ le_bytes 2 42 ++ le_bytes 4 8)).
    cbn [mbind res_bind].
    pose proof (write_at_zeros [] [] ([x49; x49] ++ le_bytes 2 42 ++ le_bytes 4 8) total 0) as Hw.
    rewrite !app_nil_r, !app_nil_l in Hw. rewrite Hw.
    - by rewrite !length_app, !length_le_bytes.
    - done.
    - rewrite !length_app, !length_le_bytes. simpl. lia. }
  cbn [mbind res_bind].
  assert (pack_into (([x49; x49] ++ le_bytes 2 42 ++ le_bytes 4 8) ++ zeros (total - 8))
                    8 [fmt_H n]
          = Ok (partial_image entries tiles 0)) as ->.
  { unfold pack_into. rewrite struct_pack_H by lia. cbn [mbind res_bind].
    pose proof (write_at_zeros ([x49; x49] ++ le_bytes 2 42 ++ le_bytes 4 8) []
                  (le_bytes 2 n) (total - 8) 8) as Hw.
    rewrite !app_nil_r in Hw. rewrite Hw.
    - unfold partial_image, regions, header_image, records_image, blocks_image.
      rewrite take_0. csimpl. rewrite length_le_bytes. fold n.
      rewrite <- !app_assoc, <- zeros_add by lia.
      by replace (span_start entries 0 - (10 + 12 * Z.of_nat 0)
                  + (span_start entries (length entries) + sum_byteCount tiles
                     - span_start entries 0))
        with (total - 8 - Z.of_nat 2) by lia.
    - by rewrite !length_app, !length_le_bytes.
    - rewrite length_le_bytes. lia. }
  cbn [mbind res_bind].
  replace (8 + 2) with 10 by lia.
  replace (8 + (2 + n * 12 + 4) + reserved entries)
    with (span_start entries (length entries)) by lia.
  replace (8 + (2 + n * 12 + 4)) with (span_start entries 0) by lia.
  rewrite write_entries_image by (done || lia).
  cbn [mbind res_bind].
  unfold partial_image.
  rewrite (pack_into_records _ _ _ _ _ _ _ _ (struct_pack_I 0 ltac:(lia)))
    by (rewrite ?length_header_image, ?length_records_image, ?length_le_bytes by lia; lia).
  cbn [mbind res_bind]. rewrite length_le_bytes.
  unfold regions.
  replace (span_start entries 0 - (10 + 12 * Z.of_nat (length entries)) - Z.of_nat 4)
    with 0 by lia.
  change (zeros 0) with (@nil byte). rewrite app_nil_l.
  replace (span_start entries (length entries) + sum_byteCount tiles
           - span_start entries (length entries)) with (sum_byteCount tiles) by lia.
  pose proof (write_tiles_image
                (header_image entries
                 ++ (records_image entries (length entries) ++ le_bytes 4 0)
                 ++ blocks_image entries tiles (length entries))
                tiles (sum_byteCount tiles) Htiles ltac:(lia)) as Hw.
  rewrite <- !app_assoc in Hw.
  replace (Z.of_nat (length (header_image entries ++ records_image entries (length entries)
                             ++ le_bytes 4 0 ++ blocks_image entries tiles (length entries))))
    with (span_start entries (length entries)) in Hw.
  2:{ rewrite !length_app, !Nat2Z.inj_add, length_header_image, length_records_image,
        length_le_bytes, length_blocks_image, firstn_all by (done || lia). lia. }
  rewrite <- !app_assoc, Hw. unfold file_image.
  rewrite Z.sub_diag. change (zeros 0) with (@nil byte). by rewrite app_nil_r.
Qed.

(** *** Finding a region of the file again *)

Lemma read_le_skip (X L : list byte) (pos : Z) (n : nat) :
  Z.of_nat (length X) ≤ pos →
  read_le (X ++ L) pos n = read_le L (pos - Z.of_nat (length X)) n.
Proof.
  intros Hpos. unfold read_le. rewrite drop_app_ge by lia.
  do 3 f_equal. lia.
Qed.

Lemma read_le_head (bs Y : list byte) (n : nat) :
  n = length bs → read_le (bs ++ Y) 0 n = le_value bs.
Proof.
  intros ->. unfold read_le. change (Z.to_nat 0) with 0%nat.
  by rewrite drop_0, take_app_length.
Qed.

Lemma read_le_inside (bs Y : list byte) (pos : Z) (n : nat) :
  0 ≤ pos → pos + Z.of_nat n ≤ Z.of_nat (length bs) →
  read_le (bs ++ Y) pos n = read_le bs pos n.
Proof.
  intros Hpos Hn. unfold read_le.
  rewrite drop_app_le, take_app_le by (rewrite ?length_drop; lia). done.
Qed.

Lemma records_image_prefix (entries : list entry) (k j : nat) :
  (k ≤ j ≤ length entries)%nat →
  ∃ X, records_image entries j = records_image entries k ++ X.
Proof.
  intros [Hkj Hj]. induction j as [|j IH].
  - assert (k = 0)%nat as -> by lia. exists []. by rewrite app_nil_r.
  - destruct (decide (k = S j)) as [->|Hne]; [exists []; by rewrite app_nil_r|].
    destruct IH as [X HX]; [lia | lia |].
    destruct (entries !! j) as [e|] eqn:He.
    2:{ apply lookup_ge_None in He. lia. }
    exists (X ++ record_image e (span_start entries j)).
    by rewrite (records_image_S _ _ _ He), HX, app_assoc.
Qed.

Lemma blocks_image_prefix (entries : list entry) (tiles : list tile) (k j : nat) :
  (k ≤ j ≤ length entries)%nat →
  ∃ X, blocks_image entries tiles j = blocks_image entries tiles k ++ X.
Proof.
  intros [Hkj Hj]. induction j as [|j IH].
  - assert (k = 0)%nat as -> by lia. exists []. by rewrite app_nil_r.
  - destruct (decide (k = S j)) as [->|Hne]; [exists []; by rewrite app_nil_r|].
    destruct IH as [X HX]; [lia | lia |].
    destruct (entries !! j) as [e|] eqn:He.
    2:{ apply lookup_ge_None in He. lia. }
    eexists (X ++ _).
    by rewrite (blocks_image_S _ _ _ _ He), HX, app_assoc.
Qed.

(** The file around the record of entry [k]. *)
Lemma file_image_record (entries : list entry) (tiles : list tile) (k : nat) (e : entry) :
  entries !! k = Some e →
  ∃ S, file_image entries tiles
       = header_image entries ++ records_image entries k
         ++ record_image e (span_start entries k) ++ S.
Proof.
  intros Hk. pose proof (lookup_lt_Some _ _ _ Hk) as Hlt.
  destruct (records_image_prefix entries (S k) (length entries)) as [X HX]; [lia|].
  eexists. unfold file_image.
  rewrite HX, (records_image_S _ _ _ Hk), <- !app_assoc. reflexivity.
Qed.

(** The file around the overflow block of entry [k]. *)
Lemma file_image_block (entries : list entry) (tiles : list tile) (k : nat) (e : entry) :
  entries !! k = Some e →
  ∃ S, file_image entries tiles
       = (header_image entries ++ records_image entries (length entries) ++ le_bytes 4 0
          ++ blocks_image entries tiles k)
         ++ block_image tiles (span_start entries (length entries)) e ++ S.
Proof.
  intros Hk. pose proof (lookup_lt_Some _ _ _ Hk) as Hlt.
  destruct (blocks_image_prefix entries tiles (S k) (length entries)) as [X HX]; [lia|].
  eexists. unfold file_image.
  rewrite HX, (blocks_image_S _ _ _ _ Hk), <- !app_assoc. reflexivity.
Qed.

Lemma length_before_block (entries : list entry) (tiles : list tile) (k : nat) :
  Forall (wf_entry tiles) entries → (k ≤ length entries)%nat →
  Z.of_nat (length (header_image entries ++ records_image entries (length entries)
                    ++ le_bytes 4 0 ++ blocks_image entries tiles k))
  = span_start entries k.
Proof.
  intros Hentries Hk.
  rewrite !length_app, !Nat2Z.inj_add, length_header_image, length_records_image,
    length_le_bytes, length_blocks_image by (done || lia).
  unfold span_start. lia.
Qed.

End Serializer.

(** ** Reading a written file back *)

Section Reading.
Import Bytes Writer Reader.
#[local] Opaque le_bytes.

Lemma read_le_at (X bs Y : list byte) (pos off : Z) (n : nat) :
  pos = Z.of_nat (length X) + off → 0 ≤ off →
  off + Z.of_nat n ≤ Z.of_nat (length bs) →
  read_le (X ++ bs ++ Y) pos n = read_le bs off n.
Proof.
  intros -> Hoff Hn. rewrite read_le_skip by lia. rewrite read_le_inside by lia.
  f_equal. lia.
Qed.

Lemma wf_entry_count (tiles : list tile) (e : entry) :
  wf_entry tiles e → 0 ≤ count e ≤ 4294967295.
Proof. intros (_ & Hc & Hle & _). lia. Qed.

(** The first eight bytes of a record give the entry's tag, type and count
    back. *)
Lemma read_record (tiles : list tile) (e : entry) (ptr : Z) :
  wf_entry tiles e →
  read_le (record_image e ptr) 0 2 = tag e
  ∧ read_le (record_image e ptr) 2 2 = type_code (typ e)
  ∧ read_le (record_image e ptr) 4 4 = count e.
Proof.
  intros Hwf. pose proof (wf_entry_count _ _ Hwf) as Hc.
  destruct Hwf as (Htag & _). unfold record_image. split_and!.
  - rewrite read_le_head by (by rewrite length_le_bytes).
    apply le_value_le_bytes. lia.
  - rewrite read_le_app by (by rewrite length_le_bytes).
    apply le_value_le_bytes. destruct (typ e); simpl; lia.
  - rewrite (app_assoc (le_bytes 2 _)).
    rewrite read_le_app by (by rewrite ?length_app, ?length_le_bytes).
    apply le_value_le_bytes. lia.
Qed.

Lemma range_S (n : nat) :
  range (Z.of_nat (S n)) = 0 :: (Z.add 1 <$> range (Z.of_nat n)).
Proof.
  unfold range. rewrite seqZ_cons by lia. f_equal.
  rewrite fmap_add_seqZ. f_equal. lia.
Qed.

(** Integer values laid out one after the other are read back one by one. *)
Lemma read_values (t : tiff_type) (vs : list pyval) (X S : list byte) (base : Z) :
  t ≠ TYPE_DOUBLE → Forall (value_ok t) vs → base = Z.of_nat (length X) →
  (λ j, read_le (X ++ (vs ≫= value_image t) ++ S) (base + j * type_sizes t)
                (Z.to_nat (type_sizes t)))
    <$> range (Z.of_nat (length vs))
  = ints vs.
Proof.
  intros Ht Hvs. revert X base. induction Hvs as [|v vs Hv Hvs IH]; intros X base Hbase.
  { done. }
  cbn [length]. rewrite range_S. csimpl. rewrite <- list_fmap_compose.
  assert (∃ z, v = VInt z ∧ value_image t v = le_bytes (Z.to_nat (type_sizes t)) z
               ∧ 0 ≤ z < 256 ^ Z.of_nat (Z.to_nat (type_sizes t))) as (z & -> & Hvi & Hz).
  { destruct t, v as [z|f]; try done; exists z; simpl in Hv |- *.
    - change (256 ^ _) with 65536. split_and!; (done || lia).
    - change (256 ^ _) with 4294967296. split_and!; (done || lia). }
  rewrite Hvi. unfold ints. csimpl. f_equal.
  - rewrite <- !app_assoc, read_le_app by (rewrite ?length_le_bytes; lia).
    by apply le_value_le_bytes.
  - fold (ints vs).
    rewrite <- (IH (X ++ le_bytes (Z.to_nat (type_sizes t)) z)
                  (base + type_sizes t)).
    2:{ rewrite length_app, length_le_bytes. destruct t; simpl; lia. }
    apply list_fmap_ext. intros _ j _. simpl. rewrite <- !app_assoc.
    f_equal. lia.
Qed.

Lemma tile_offsets_image (tdo : Z) (tiles : list tile) :
  tile_offsets tdo tiles ≫= le_bytes 4
  = (VInt <$> tile_offsets tdo tiles) ≫= value_image TYPE_LONG.
Proof.
  revert tdo. induction tiles as [|t tiles IH]; intros tdo; [done|].
  simpl. csimpl. by rewrite IH.
Qed.

Lemma ints_VInt (zs : list Z) : ints (VInt <$> zs) = zs.
Proof. induction zs as [|z zs IH]; [done|]. unfold ints in *. csimpl. by rewrite IH. Qed.

Lemma tile_offsets_lookup (tiles : list tile) (tdo : Z) (k : nat) :
  (k < length tiles)%nat →
  tile_offsets tdo tiles !! k = Some (tdo + sum_byteCount (take k tiles)).
Proof.
  revert tdo k. induction tiles as [|t tiles IH]; intros tdo k Hk; [simpl in Hk; lia|].
  destruct k as [|k].
  - simpl. f_equal. unfold sum_byteCount. simpl. lia.
  - simpl in Hk. cbn [tile_offsets lookup list_lookup take]. rewrite IH by lia.
    f_equal. rewrite sum_byteCount_cons. lia.
Qed.

Section File.

Variables (entries : list entry) (tiles : list tile).
Hypothesis Hentries : Forall (wf_entry tiles) entries.
Hypothesis Hcount : Z.of_nat (length entries) ≤ 65535.

Lemma length_before_record (k : nat) :
  (k ≤ length entries)%nat →
  Z.of_nat (length (header_image entries ++ records_image entries k))
  = 10 + 12 * Z.of_nat k.
Proof.
  intros Hk. rewrite length_app, length_header_image, length_records_image by done. lia.
Qed.

Lemma entry_at_file (k : nat) (e : entry) :
  entries !! k = Some e →
  entry_at (file_image entries tiles) 8 (Z.of_nat k)
  = IfdEntry (tag e) (type_code (typ e)) (count e) (18 + 12 * Z.of_nat k).
Proof.
  intros Hk. pose proof (lookup_lt_Some _ _ _ Hk) as Hlt.
  assert (wf_entry tiles e) as Hwf.
  { eapply Forall_lookup_1; eauto. }
  destruct (read_record tiles e (span_start entries k) Hwf) as (Htag & Htyp & Hcnt).
  destruct (file_image_record entries tiles k e Hk) as [S ->].
  rewrite (app_assoc (header_image entries)).
  pose proof (length_before_record k ltac:(lia)) as Hlen.
  unfold entry_at. f_equal.
  - rewrite (read_le_at _ _ _ _ 0) by (rewrite ?length_record_image; lia). done.
  - rewrite (read_le_at _ _ _ _ 2) by (rewrite ?length_record_image; lia). done.
  - rewrite (read_le_at _ _ _ _ 4) by (rewrite ?length_record_image; lia). done.
  - lia.
Qed.

(** The directory a reader parses out of the file is the entry list, record
    for record. *)
Lemma directory_file :
  directory (file_image entries tiles)
  = Some (imap (λ i e, IfdEntry (tag e) (type_code (typ e)) (count e)
                                (18 + 12 * Z.of_nat i)) entries).
Proof.
  unfold directory.
  assert (take 2 (file_image entries tiles) = [x49; x49]) as -> by done.
  assert (read_le (file_image entries tiles) 2 2 = 42) as ->.
  { unfold file_image, header_image. rewrite <- !app_assoc.
    rewrite read_le_app by (by rewrite ?length_le_bytes).
    by apply le_value_le_bytes. }
  assert (read_le (file_image entries tiles) 4 4 = 8) as ->.
  { unfold file_image, header_image. rewrite <- !app_assoc.
    rewrite (app_assoc [x49; x49]).
    rewrite read_le_app by (by rewrite ?length_app, ?length_le_bytes).
    by apply le_value_le_bytes. }
  assert (read_le (file_image entries tiles) 8 2 = Z.of_nat (length entries)) as ->.
  { unfold file_image, header_image. rewrite <- !app_assoc.
    rewrite (app_assoc [x49; x49]), (app_assoc (_ ++ _) (le_bytes 4 8)).
    rewrite read_le_app by (by rewrite ?length_app, ?length_le_bytes).
    apply le_value_le_bytes. lia. }
  rewrite bool_decide_eq_true_2 by done. simpl. f_equal.
  apply list_eq. intros i. rewrite list_lookup_fmap, list_lookup_imap.
  destruct (entries !! i) as [e|] eqn:He.
  - rewrite lookup_range by (apply lookup_lt_Some in He; lia).
    simpl. f_equal. by apply entry_at_file.
  - apply lookup_ge_None in He.
    rewrite (proj2 (lookup_ge_None _ _)) by (rewrite length_range; lia). done.
Qed.

Lemma find_entry_file (t : Z) (k : nat) (e : entry) :
  list_find (λ e, tag e = t) entries = Some (k, e) →
  find_entry (file_image entries tiles) t
  = Some (IfdEntry t (type_code (typ e)) (count e) (18 + 12 * Z.of_nat k)).
Proof.
  intros (Hk & Ht & Hmin)%list_find_Some.
  unfold find_entry. rewrite directory_file. cbn [mbind option_bind].
  rewrite (proj2 (list_find_Some _ _ k
             (IfdEntry (tag e) (type_code (typ e)) (count e) (18 + 12 * Z.of_nat k))));
    [simpl; by rewrite Ht|].
  split_and!.
  - by rewrite list_lookup_imap, Hk.
  - done.
  - intros j y Hj Hjk. rewrite list_lookup_imap in Hj.
    destruct (entries !! j) as [e'|] eqn:He'; [|done].
    simpl in Hj. injection Hj as <-. simpl. by eapply Hmin.
Qed.

Hypothesis Htiles : Forall wf_tile tiles.
Hypothesis Hsize :
  span_start entries (length entries) + sum_byteCount tiles ≤ 4294967295.

Lemma span_start_range (k : nat) : 0 ≤ span_start entries k < 256 ^ Z.of_nat 4.
Proof.
  pose proof (span_start_mono entries k). pose proof (sum_byteCount_nonneg _ Htiles).
  pose proof (reserved_nonneg (take k entries)).
  change (256 ^ Z.of_nat 4) with 4294967296. unfold span_start in *. lia.
Qed.

Lemma type_size_code (t : tiff_type) : type_size (type_code t) = Some (type_sizes t).
Proof. by destruct t. Qed.

(** What the value field holds, and the file around it. *)
Lemma file_image_field (k : nat) (e : entry) :
  entries !! k = Some e →
  ∃ S, file_image entries tiles
       = (header_image entries ++ records_image entries k ++ le_bytes 2 (tag e)
          ++ le_bytes 2 (type_code (typ e)) ++ le_bytes 4 (count e))
         ++ value_field e (span_start entries k) ++ S
     ∧ Z.of_nat (length (header_image entries ++ records_image entries k
                         ++ le_bytes 2 (tag e) ++ le_bytes 2 (type_code (typ e))
                         ++ le_bytes 4 (count e)))
       = 18 + 12 * Z.of_nat k.
Proof.
  intros Hk. pose proof (lookup_lt_Some _ _ _ Hk) as Hlt.
  destruct (file_image_record entries tiles k e Hk) as [S ->].
  exists S. split.
  - unfold record_image. by rewrite <- !app_assoc.
  - rewrite !length_app, length_header_image, length_records_image, !length_le_bytes by lia.
    lia.
Qed.

Lemma overflow_pointer (k : nat) (e : entry) :
  entries !! k = Some e → 4 < byte_size e →
  read_le (file_image entries tiles) (18 + 12 * Z.of_nat k) 4 = span_start entries k.
Proof.
  intros Hk Hbig. destruct (file_image_field k e Hk) as (S & -> & Hlen).
  unfold value_field. rewrite (proj2 (Z.leb_gt _ _)) by lia.
  rewrite read_le_app by (rewrite ?length_le_bytes; lia).
  apply le_value_le_bytes, span_start_range.
Qed.

Lemma inline_field_values (e : entry) :
  wf_entry tiles e → byte_size e ≤ 4 →
  ∃ pad, inline_field e = (values e ≫= value_image (typ e)) ++ pad.
Proof.
  intros (_ & Hc & _ & Hvs & _) Hsmall. unfold byte_size in Hsmall. rewrite Hc in Hsmall.
  unfold inline_field.
  destruct (typ e), (values e) as [|[z|f] [|[z'|f'] [|v'' vs]]];
    simpl in Hsmall; try lia; csimpl; rewrite ?app_nil_r;
    repeat match goal with
           | H : Forall _ (_ :: _) |- _ => apply Forall_cons in H as [? H]
           end; try done; eauto using app_nil_r.
  all: try (by eexists; rewrite <- ?app_assoc).
Qed.

(** An integer tag other than a back-filled tile-offset array reads back as
    the entry's values. *)
Lemma tag_values_plain (t : Z) (k : nat) (e : entry) :
  list_find (λ e, tag e = t) entries = Some (k, e) →
  typ e ≠ TYPE_DOUBLE → byte_size e ≤ 4 ∨ tag e ≠ TAG_TILE_OFFSETS →
  tag_values (file_image entries tiles) t = Some (entry_ints e).
Proof.
  intros Hfind Htyp Hplain. unfold tag_values.
  rewrite (find_entry_file _ _ _ Hfind). cbn [mbind option_bind e_type e_count e_field].
  apply list_find_Some in Hfind as (Hk & Ht & _).
  rewrite type_size_code. cbn [mbind option_bind]. f_equal.
  assert (wf_entry tiles e) as Hwf by (eapply Forall_lookup_1; eauto).
  pose proof Hwf as (_ & Hc & _ & Hvs & _).
  fold (byte_size e). rewrite Hc. unfold entry_ints.
  destruct (Z.leb_spec (byte_size e) 4) as [Hsmall|Hbig].
  - destruct (file_image_field k e Hk) as (S & -> & Hlen).
    destruct (inline_field_values e Hwf Hsmall) as [pad Hpad].
    unfold value_field. rewrite (proj2 (Z.leb_le _ _)) by done.
    rewrite Hpad, <- (app_assoc _ pad S).
    by apply read_values.
  - rewrite (overflow_pointer k e Hk Hbig).
    destruct (file_image_block entries tiles k e Hk) as [S ->].
    unfold block_image. rewrite (proj2 (Z.leb_gt _ _)) by done.
    destruct Hplain as [?|Hne]; [lia|].
    rewrite (proj2 (Z.eqb_neq _ _)) by done.
    apply read_values; [done..|].
    symmetry. apply length_before_block; [done|]. apply lookup_lt_Some in Hk. lia.
Qed.

Lemma tile_offsets_bound (tdo : Z) (ts : list tile) :
  Forall wf_tile ts →
  Forall (λ o, tdo ≤ o ≤ tdo + sum_byteCount ts) (tile_offsets tdo ts).
Proof.
  intros Hts. revert tdo. induction Hts as [|t ts Ht Hts IH]; intros tdo; [done|].
  pose proof (sum_byteCount_nonneg _ Hts). rewrite sum_byteCount_cons.
  unfold wf_tile in Ht. simpl. constructor; [lia|].
  eapply Forall_impl; [apply IH|]. simpl. intros o Ho. lia.
Qed.

(** A tile-offset array of two tiles or more reads back as the offsets of the
    tiles laid end to end from the start of the tile data. *)
Lemma tag_values_tile_offsets (k : nat) (e : entry) :
  list_find (λ e, tag e = TAG_TILE_OFFSETS) entries = Some (k, e) →
  typ e = TYPE_LONG → 4 < byte_size e →
  tag_values (file_image entries tiles) TAG_TILE_OFFSETS
  = Some (tile_offsets (span_start entries (length entries)) tiles).
Proof.
  intros Hfind Htyp Hbig. unfold tag_values.
  rewrite (find_entry_file _ _ _ Hfind). cbn [mbind option_bind e_type e_count e_field].
  apply list_find_Some in Hfind as (Hk & Ht & _).
  rewrite type_size_code. cbn [mbind option_bind]. f_equal.
  assert (wf_entry tiles e) as Hwf by (eapply Forall_lookup_1; eauto).
  pose proof Hwf as (_ & _ & _ & _ & Hlink). specialize (Hlink Ht Hbig).
  fold (byte_size e). rewrite (proj2 (Z.leb_gt _ _)) by done.
  rewrite (overflow_pointer k e Hk Hbig).
  destruct (file_image_block entries tiles k e Hk) as [S ->].
  unfold block_image. rewrite (proj2 (Z.leb_gt _ _)) by done.
  rewrite (proj2 (Z.eqb_eq _ _)) by done.
  set (tdo := span_start entries (length entries)).
  assert (count e = Z.of_nat (length (VInt <$> tile_offsets tdo tiles))) as ->.
  { rewrite length_fmap, length_tile_offsets. unfold byte_size in Hlink.
    rewrite Htyp in Hlink. simpl in Hlink. lia. }
  rewrite Htyp, tile_offsets_image.
  etrans; [|apply ints_VInt].
  apply read_values; [done| |].
  - apply Forall_fmap. eapply Forall_impl; [apply tile_offsets_bound, Htiles|].
    simpl. intros o Ho. pose proof (span_start_range (length entries)). fold tdo in H.
    lia.
  - symmetry. apply length_before_block; [done|]. apply lookup_lt_Some in Hk. lia.
Qed.

End File.

End Reading.
